(** * DonationTracker: a shallow embedding of contracts/DonationTracker.sol

    The contract storage is a record, Solidity mappings are [gmap]s read
    with the total lookup [!!!] (an absent key reads as the zero value of
    its type), [uint256] values are integers with Solidity 0.8 checked
    arithmetic (overflow and underflow abort the call with a panic), and a
    call either commits a new state together with the events it emitted or
    reverts, in which case the storage is left as it was. *)

From Stdlib Require Import ZArith String List Lia.
From stdpp Require Import gmap strings list fin_maps.

Local Open Scope string_scope.
Local Open Scope list_scope.
Local Open Scope Z_scope.

(** ** Machine integers and results *)

Abbreviation address := N.

Definition MAX_UINT256 : Z := 2 ^ 256 - 1.

(** The outcome of a call: [Ok] commits, [Revert] is a failed [require]
    carrying its reason string, [Panic] is a compiler-inserted check
    (0x11 arithmetic overflow, 0x32 array index out of bounds). *)
Inductive Result (A : Type) : Type :=
| Ok (a : A)
| Revert (reason : string)
| Panic (code : Z).
Arguments Ok {A} a.
Arguments Revert {A} reason.
Arguments Panic {A} code.

Definition bind {A B : Type} (r : Result A) (k : A → Result B) : Result B :=
  match r with
  | Ok a => k a
  | Revert reason => Revert reason
  | Panic code => Panic code
  end.

Notation "'do' x <- r ; k" := (bind r (fun x => k))
  (at level 10, x pattern, r at level 100, k at level 200).
Notation "'check' r ; k" := (bind r (fun _ : unit => k))
  (at level 10, r at level 100, k at level 200).

Definition require (cond : bool) (reason : string) : Result unit :=
  if cond then Ok tt else Revert reason.

(** [a + b] on [uint256] in Solidity ^0.8: panics on overflow. *)
Definition checked_add (a b : Z) : Result Z :=
  if a + b <=? MAX_UINT256 then Ok (a + b) else Panic 17.

(** [a - b] on [uint256] in Solidity ^0.8: panics on underflow. *)
Definition checked_sub (a b : Z) : Result Z :=
  if b <=? a then Ok (a - b) else Panic 17.

(** [bytes(s).length] *)
Definition bytes_length (s : string) : Z := Z.of_nat (String.length s).

(** ** Storage layout *)

Record NGO : Type := mkNGO {
  wallet : address;
  name : string;
  metadataCID : string;
  approved : bool;
  totalReceived : Z;
  totalWithdrawn : Z;
  description : string;
  website : string;
  contact : string;
  exists_ : bool
}.

Record Donation : Type := mkDonation {
  id : Z;
  donor : address;
  ngo : address;
  amount : Z;
  timestamp : Z;
  message : string;
  proofCID : string
}.

(** The value a mapping returns for a key that was never written. *)
Definition zeroNGO : NGO := mkNGO 0%N "" "" false 0 0 "" "" "" false.
Definition zeroDonation : Donation := mkDonation 0 0%N 0%N 0 0 "" "".

Global Instance NGO_inhabited : Inhabited NGO := populate zeroNGO.
Global Instance Donation_inhabited : Inhabited Donation := populate zeroDonation.

(** The state variables of the contract, and [balance] for
    [address(this).balance], which moves with the value of the message
    calls to and from the contract and with the funds credited to the
    account without a call ([force_funds] below). *)
Record State : Type := mkState {
  owner : address;
  nextDonationId : Z;
  ngos : gmap N NGO;
  donations : gmap Z Donation;
  pendingWithdrawals : gmap N Z;
  ngoAddresses : list N;
  donationIds : list Z;
  balance : Z
}.

Inductive Event : Type :=
| NGORegistered (ngoWallet : address) (name : string)
| NGOApproved (ngoWallet : address) (approved : bool)
| DonationMade (donationId : Z) (donor ngo : address) (amount : Z) (message : string)
| ProofAdded (donationId : Z) (cid : string)
| WithdrawalMade (ngo : address) (amount : Z).

(** Reading a [mapping(address => uint256)]: a key that was never written
    reads as zero. *)
Definition uint_at (m : gmap N Z) (a : address) : Z := default 0 (m !! a).

(** Field updates. *)
Definition set_approved (b : bool) (n : NGO) : NGO :=
  mkNGO (wallet n) (name n) (metadataCID n) b (totalReceived n) (totalWithdrawn n)
        (description n) (website n) (contact n) (exists_ n).
Definition set_totalReceived (v : Z) (n : NGO) : NGO :=
  mkNGO (wallet n) (name n) (metadataCID n) (approved n) v (totalWithdrawn n)
        (description n) (website n) (contact n) (exists_ n).
Definition set_totalWithdrawn (v : Z) (n : NGO) : NGO :=
  mkNGO (wallet n) (name n) (metadataCID n) (approved n) (totalReceived n) v
        (description n) (website n) (contact n) (exists_ n).
Definition set_proofCID (c : string) (d : Donation) : Donation :=
  mkDonation (id d) (donor d) (ngo d) (amount d) (timestamp d) (message d) c.

Definition set_owner (a : address) (s : State) : State :=
  mkState a (nextDonationId s) (ngos s) (donations s) (pendingWithdrawals s)
          (ngoAddresses s) (donationIds s) (balance s).
Definition set_nextDonationId (v : Z) (s : State) : State :=
  mkState (owner s) v (ngos s) (donations s) (pendingWithdrawals s)
          (ngoAddresses s) (donationIds s) (balance s).
Definition set_ngo (a : address) (n : NGO) (s : State) : State :=
  mkState (owner s) (nextDonationId s) (<[a := n]> (ngos s)) (donations s)
          (pendingWithdrawals s) (ngoAddresses s) (donationIds s) (balance s).
Definition set_donation (i : Z) (d : Donation) (s : State) : State :=
  mkState (owner s) (nextDonationId s) (ngos s) (<[i := d]> (donations s))
          (pendingWithdrawals s) (ngoAddresses s) (donationIds s) (balance s).
Definition set_pending (a : address) (v : Z) (s : State) : State :=
  mkState (owner s) (nextDonationId s) (ngos s) (donations s)
          (<[a := v]> (pendingWithdrawals s)) (ngoAddresses s) (donationIds s) (balance s).
Definition push_ngoAddress (a : address) (s : State) : State :=
  mkState (owner s) (nextDonationId s) (ngos s) (donations s) (pendingWithdrawals s)
          (ngoAddresses s ++ [a]) (donationIds s) (balance s).
Definition push_donationId (i : Z) (s : State) : State :=
  mkState (owner s) (nextDonationId s) (ngos s) (donations s) (pendingWithdrawals s)
          (ngoAddresses s) (donationIds s ++ [i]) (balance s).
Definition set_balance (v : Z) (s : State) : State :=
  mkState (owner s) (nextDonationId s) (ngos s) (donations s) (pendingWithdrawals s)
          (ngoAddresses s) (donationIds s) v.

(** ** The contract *)

(** [constructor()], deployed by [sender]. The constructor does not read
    the balance: funds the address held before deployment are accounted for
    as funds credited without a call, right after deployment. *)
Definition constructor (sender : address) : State :=
  mkState sender 1 ∅ ∅ ∅ [] [] 0.

(** Modifiers. *)
Definition onlyOwner (sender : address) (s : State) : Result unit :=
  require (bool_decide (sender = owner s)) "Only owner can call this function".

Definition ngoExists (ngoWallet : address) (s : State) : Result unit :=
  require (exists_ (ngos s !!! ngoWallet)) "NGO does not exist".

Definition onlyNGO (sender : address) (s : State) : Result unit :=
  require (exists_ (ngos s !!! sender)) "Only registered NGOs can call this".

Definition onlyApprovedNGO (sender : address) (s : State) : Result unit :=
  require (exists_ (ngos s !!! sender) && approved (ngos s !!! sender)) "NGO not approved".

Definition registerNGO (sender : address)
    (name metadataCID description website contact : string) (s : State)
    : Result (State * list Event) :=
  check require (negb (exists_ (ngos s !!! sender))) "NGO already registered";
  check require (0 <? bytes_length name) "Name cannot be empty";
  let newNGO := mkNGO sender name metadataCID false 0 0 description website contact true in
  let s := set_ngo sender newNGO s in
  let s := push_ngoAddress sender s in
  Ok (s, [NGORegistered sender name]).

Definition approveNGO (sender : address) (ngoWallet : address) (approved : bool)
    (s : State) : Result (State * list Event) :=
  check onlyOwner sender s;
  check ngoExists ngoWallet s;
  let s := set_ngo ngoWallet (set_approved approved (ngos s !!! ngoWallet)) s in
  Ok (s, [NGOApproved ngoWallet approved]).

Definition getNGO (ngoWallet : address) (s : State) : Result NGO :=
  check ngoExists ngoWallet s;
  Ok (ngos s !!! ngoWallet).

Definition getAllNGOs (s : State) : list N := ngoAddresses s.

(** [donate] is payable: [s] is the state in which [value] has already been
    credited to the balance of the contract. *)
Definition donate (now : Z) (sender : address) (value : Z)
    (ngoWallet : address) (message : string) (s : State)
    : Result (State * list Event) :=
  check ngoExists ngoWallet s;
  check require (approved (ngos s !!! ngoWallet)) "NGO is not approved";
  check require (0 <? value) "Donation amount must be greater than 0";
  let donationId := nextDonationId s in
  do next <- checked_add (nextDonationId s) 1;
  let s := set_nextDonationId next s in
  let newDonation := mkDonation donationId sender ngoWallet value now message "" in
  let s := set_donation donationId newDonation s in
  let s := push_donationId donationId s in
  do received <- checked_add (totalReceived (ngos s !!! ngoWallet)) value;
  let s := set_ngo ngoWallet (set_totalReceived received (ngos s !!! ngoWallet)) s in
  do pending <- checked_add (uint_at (pendingWithdrawals s) ngoWallet) value;
  let s := set_pending ngoWallet pending s in
  Ok (s, [DonationMade donationId sender ngoWallet value message]).

Definition getDonation (donationId : Z) (s : State) : Result Donation :=
  check require (negb (id (donations s !!! donationId) =? 0)) "Donation does not exist";
  Ok (donations s !!! donationId).

Definition getAllDonations (s : State) : list Z := donationIds s.

(** A [for (uint256 i = 0; i < l.length; i++)] loop over a storage array:
    [body] is run on each element in turn, threading the local variables
    [st]; the second component of the result counts the iterations. *)
Fixpoint for_each {A St : Type} (body : A → St → Result St)
    (l : list A) (st : St) (iterations : nat) : Result (St * nat) :=
  match l with
  | [] => Ok (st, iterations)
  | x :: rest =>
      do st <- body x st;
      for_each body rest st (S iterations)
  end.

(** [ngodonationIds[index] = v] on a memory array: panics out of bounds. *)
Definition array_store (arr : list Z) (index : Z) (v : Z) : Result (list Z) :=
  if index <? Z.of_nat (length arr)
  then Ok (<[Z.to_nat index := v]> arr)
  else Panic 50.

(** The body of the first loop of [getDonationsByNGO]. *)
Definition count_body (s : State) (ngoWallet : address) (donationId : Z) (count : Z)
    : Result Z :=
  if bool_decide (ngo (donations s !!! donationId) = ngoWallet)
  then checked_add count 1
  else Ok count.

(** The body of the second loop: [ngodonationIds[index++] = donationIds[i]]. *)
Definition fill_body (s : State) (ngoWallet : address) (donationId : Z)
    (st : list Z * Z) : Result (list Z * Z) :=
  let '(ngodonationIds, index) := st in
  if bool_decide (ngo (donations s !!! donationId) = ngoWallet)
  then
    do next <- checked_add index 1;
    do ngodonationIds <- array_store ngodonationIds index donationId;
    Ok (ngodonationIds, next)
  else Ok (ngodonationIds, index).

(** [getDonationsByNGO], returning also the number of loop iterations it
    ran over [donationIds]. *)
Definition getDonationsByNGO_scan (ngoWallet : address) (s : State)
    : Result (list Z * nat) :=
  do (count, n1) <- for_each (count_body s ngoWallet) (donationIds s) 0 0%nat;
  let ngodonationIds := replicate (Z.to_nat count) 0 in
  do ((ngodonationIds, _), n2) <-
     for_each (fill_body s ngoWallet) (donationIds s) (ngodonationIds, 0) n1;
  Ok (ngodonationIds, n2).

Definition getDonationsByNGO (ngoWallet : address) (s : State) : Result (list Z) :=
  do (ngodonationIds, _) <- getDonationsByNGO_scan ngoWallet s;
  Ok ngodonationIds.

Definition addProof (sender : address) (donationId : Z) (cid : string) (s : State)
    : Result (State * list Event) :=
  check onlyApprovedNGO sender s;
  check require (negb (id (donations s !!! donationId) =? 0)) "Donation does not exist";
  check require (bool_decide (ngo (donations s !!! donationId) = sender))
        "Only recipient NGO can add proof";
  check require (bytes_length (proofCID (donations s !!! donationId)) =? 0)
        "Proof already added";
  let s := set_donation donationId (set_proofCID cid (donations s !!! donationId)) s in
  Ok (s, [ProofAdded donationId cid]).

(** [to.call{value: amount}("")]: the transfer fails when the contract holds
    less than [amount]; otherwise the funds leave the contract and the code
    of the recipient, [callee], runs on the resulting state. [None] is
    [success == false]. *)
Definition call_value (callee : State → option (State * list Event))
    (amount : Z) (s : State) : option (State * list Event) :=
  if amount <=? balance s
  then callee (set_balance (balance s - amount) s)
  else None.

(** [withdraw], parameterised by the behaviour of the external call. *)
Definition withdraw (call : address → Z → State → option (State * list Event))
    (sender : address) (amount : Z) (s : State) : Result (State * list Event) :=
  check onlyApprovedNGO sender s;
  check require (0 <? amount) "Amount must be greater than 0";
  check require (amount <=? uint_at (pendingWithdrawals s) sender) "Insufficient balance";
  do pending <- checked_sub (uint_at (pendingWithdrawals s) sender) amount;
  let s := set_pending sender pending s in
  do withdrawn <- checked_add (totalWithdrawn (ngos s !!! sender)) amount;
  let s := set_ngo sender (set_totalWithdrawn withdrawn (ngos s !!! sender)) s in
  match call sender amount s with
  | None => Revert "Withdrawal failed"
  | Some (s, log) => Ok (s, log ++ [WithdrawalMade sender amount])
  end.

Definition getPendingWithdrawal (ngoWallet : address) (s : State) : Z :=
  uint_at (pendingWithdrawals s) ngoWallet.

Definition transferOwnership (sender : address) (newOwner : address) (s : State)
    : Result (State * list Event) :=
  check onlyOwner sender s;
  check require (negb (bool_decide (newOwner = 0%N))) "New owner cannot be zero address";
  Ok (set_owner newOwner s, []).

Definition getContractBalance (s : State) : Z := balance s.

(** ** Message calls and transactions *)

(** The state-changing entry points. The recipient of a withdrawal is
    arbitrary code: it may call back into the contract any number of times
    (as itself or through other accounts, [Reenter]) and finally accept the
    funds or fail. A reentrant call that reverts is discarded and the
    recipient carries on. *)
Inductive Call : Type :=
| RegisterNGO (name metadataCID description website contact : string)
| ApproveNGO (ngoWallet : address) (approved : bool)
| Donate (ngoWallet : address) (message : string)
| AddProof (donationId : Z) (cid : string)
| Withdraw (amount : Z) (recipient : Receiver)
| TransferOwnership (newOwner : address)
with Receiver : Type :=
| Accept
| Fail
| Reenter (sender : address) (value : Z) (call : Call) (rest : Receiver).

(** A function that is not [payable] reverts when sent funds. *)
Definition nonpayable (value : Z) : Result unit :=
  require (value =? 0) "".

(** [exec] dispatches a message call from [sender] carrying [value] to the
    function it names; the value of a call to the payable [donate] is
    credited to the contract before its body runs. [receive] runs the code
    of the recipient of a withdrawal on the state it finds. *)
Fixpoint exec (now : Z) (sender : address) (value : Z) (c : Call) (s : State)
    {struct c} : Result (State * list Event) :=
  match c with
  | RegisterNGO name metadataCID description website contact =>
      check nonpayable value;
      registerNGO sender name metadataCID description website contact s
  | ApproveNGO ngoWallet approved =>
      check nonpayable value;
      approveNGO sender ngoWallet approved s
  | Donate ngoWallet message =>
      donate now sender value ngoWallet message (set_balance (balance s + value) s)
  | AddProof donationId cid =>
      check nonpayable value;
      addProof sender donationId cid s
  | Withdraw amount recipient =>
      check nonpayable value;
      withdraw (fun _ => call_value (receive now recipient)) sender amount s
  | TransferOwnership newOwner =>
      check nonpayable value;
      transferOwnership sender newOwner s
  end
with receive (now : Z) (r : Receiver) (s : State) {struct r}
    : option (State * list Event) :=
  match r with
  | Accept => Some (s, [])
  | Fail => None
  | Reenter sender value call rest =>
      match exec now sender value call s with
      | Ok (s', log) =>
          match receive now rest s' with
          | Some (s'', log') => Some (s'', log ++ log')
          | None => None
          end
      | _ => receive now rest s
      end
  end.

Record Tx : Type := mkTx {
  block_timestamp : Z;
  msg_sender : address;
  msg_value : Z;
  msg_call : Call
}.

Definition transact (tx : Tx) (s : State) : Result (State * list Event) :=
  exec (block_timestamp tx) (msg_sender tx) (msg_value tx) (msg_call tx) s.

(** The storage after a transaction: a transaction that does not succeed
    leaves no trace. *)
Definition apply_tx (s : State) (tx : Tx) : State :=
  match transact tx s with
  | Ok (s', _) => s'
  | _ => s
  end.

(** Funds credited to the account of the contract without a call to it:
    the beneficiary of a [selfdestruct], a block reward, or what the address
    held before deployment. No code of the contract runs and no storage
    changes; only [address(this).balance] grows. *)
Definition force_funds (v : N) (s : State) : State :=
  set_balance (balance s + Z.of_N v) s.

(** The states of the contract: deployment, then transactions and funds
    credited without a call, in any order. *)
Inductive reachable : State → Prop :=
| reachable_deployed (deployer : address) : reachable (constructor deployer)
| reachable_tx (s : State) (tx : Tx) : reachable s → reachable (apply_tx s tx)
| reachable_forced (s : State) (v : N) : reachable s → reachable (force_funds v s).

(** What happens to the contract, one step at a time. *)
Inductive Step : Type :=
| Transaction (tx : Tx)
| ForcedFunds (v : N).

Scheme Call_Receiver_ind := Induction for Call Sort Prop
  with Receiver_Call_ind := Induction for Receiver Sort Prop.
Combined Scheme Call_Receiver_comb from Call_Receiver_ind, Receiver_Call_ind.

(** ** Specification-level notions *)

(** The sum of the pending balances of the organisations in [l]. *)
Definition sum_pending (m : gmap N Z) (l : list N) : Z :=
  foldr (fun a acc => uint_at m a + acc) 0 l.

Definition total_pending (s : State) : Z :=
  sum_pending (pendingWithdrawals s) (ngoAddresses s).

(** The state in which [withdraw] makes its external call: the pending
    balance of [sender] debited and its [totalWithdrawn] incremented. *)
Definition debited (sender : address) (amount : Z) (s : State) : State :=
  let s := set_pending sender (uint_at (pendingWithdrawals s) sender - amount) s in
  set_ngo sender
    (set_totalWithdrawn (totalWithdrawn (ngos s !!! sender) + amount) (ngos s !!! sender)) s.

(** A history of the contract: the state it leads to and the events of
    the transactions that succeeded. *)
Fixpoint run (s : State) (steps : list Step) : State * list Event :=
  match steps with
  | [] => (s, [])
  | Transaction tx :: rest =>
      match transact tx s with
      | Ok (s', log) => let '(s'', log') := run s' rest in (s'', log ++ log')
      | _ => run s rest
      end
  | ForcedFunds v :: rest => run (force_funds v s) rest
  end.

(** The funds a history credited to the contract without a call. *)
Definition forced_total (steps : list Step) : Z :=
  foldr (fun step acc =>
           match step with
           | Transaction _ => acc
           | ForcedFunds v => Z.of_N v + acc
           end) 0 steps.

(** What the contract holds beyond the pending balances. *)
Definition surplus (s : State) : Z := balance s - total_pending s.

(** The ids of the donations recorded in an event log, oldest first. *)
Definition created_ids (log : list Event) : list Z :=
  omap (fun e => match e with DonationMade i _ _ _ _ => Some i | _ => None end) log.

(** The donations a call creates are numbered consecutively from the
    counter it started with, and the counter ends just past them. *)
Definition numbers_from (s s' : State) (log : list Event) : Prop :=
  nextDonationId s ≤ nextDonationId s' ∧
  created_ids log = seqZ (nextDonationId s) (nextDonationId s' - nextDonationId s).

(** The donations of [ngoWallet] among [l], in the order of [l]. *)
Definition matching (s : State) (ngoWallet : address) (l : list Z) : list Z :=
  filter (fun i => ngo (donations s !!! i) = ngoWallet) l.

(** The ledger invariant: the accounts of each organisation add up, the
    registry agrees with the presence flags, the funds held cover the
    pending balances, and the dense
    numbering of donations. *)
Record Inv (s : State) : Prop := mkInv {
  inv_accounts : ∀ a,
    0 ≤ totalWithdrawn (ngos s !!! a) ∧
    0 ≤ uint_at (pendingWithdrawals s) a ∧
    uint_at (pendingWithdrawals s) a + totalWithdrawn (ngos s !!! a)
      = totalReceived (ngos s !!! a) ∧
    totalReceived (ngos s !!! a) ≤ MAX_UINT256;
  inv_registered : ∀ a, a ∈ ngoAddresses s ↔ exists_ (ngos s !!! a) = true;
  inv_unregistered : ∀ a,
    exists_ (ngos s !!! a) = false → uint_at (pendingWithdrawals s) a = 0;
  inv_nodup : NoDup (ngoAddresses s);
  inv_custody : total_pending s ≤ balance s;
  inv_next : 1 ≤ nextDonationId s ≤ MAX_UINT256;
  inv_ids : donationIds s = seqZ 1 (nextDonationId s - 1);
  inv_donation_id : ∀ i,
    id (donations s !!! i) = if bool_decide (1 ≤ i < nextDonationId s) then i else 0
}.

(** "Served from an index": the query does work proportional to its
    answer, not to the number of donations in the system. *)
Definition index_served (ngoWallet : address) (s : State) : Prop :=
  ∃ l n, getDonationsByNGO_scan ngoWallet s = Ok (l, n) ∧ (n ≤ length l)%nat.

(** ** A concrete run

    The owner deploys; organisation [alpha] registers and is approved;
    a donor gives 100 to it, three times over in [busy]. *)
Module Scenario.
Definition admin : address := 1%N.
Definition alpha : address := 10%N.
Definition beta : address := 11%N.
Definition donor1 : address := 20%N.

Definition registered : State :=
  apply_tx (constructor admin) (mkTx 100 alpha 0 (RegisterNGO "Alpha Relief" "" "desc" "" "")).
Definition vetted : State :=
  apply_tx registered (mkTx 101 admin 0 (ApproveNGO alpha true)).
Definition funded : State :=
  apply_tx vetted (mkTx 102 donor1 100 (Donate alpha "hi")).
Definition busy : State :=
  apply_tx (apply_tx funded (mkTx 103 donor1 5 (Donate alpha "")))
           (mkTx 104 donor1 7 (Donate alpha "")).
Definition topped_up : State := force_funds 7 funded.
End Scenario.

(** ** Notions for the properties of whole runs *)

(** The state in which the recipient of a withdrawal runs: debited, and
    with the funds gone from the contract. *)
Definition paid (sender : address) (amount : Z) (s : State) : State :=
  set_balance (balance s - amount) (debited sender amount s).

(** The state a successful [donate] of [value] leaves, from the state [s]
    in which the call arrived. *)
Definition credited (now : Z) (sender : address) (value : Z)
    (ngoWallet : address) (message : string) (s : State) : State :=
  let donationId := nextDonationId s in
  let s := set_balance (balance s + value) s in
  let s := set_nextDonationId (donationId + 1) s in
  let s := set_donation donationId
             (mkDonation donationId sender ngoWallet value now message "") s in
  let s := push_donationId donationId s in
  let s := set_ngo ngoWallet
             (set_totalReceived (totalReceived (ngos s !!! ngoWallet) + value)
                (ngos s !!! ngoWallet)) s in
  set_pending ngoWallet (uint_at (pendingWithdrawals s) ngoWallet + value) s.

(** A donation record as it may become: nothing changes but the proof, and
    a proof that is there stays. *)
Definition frozen (d d' : Donation) : Prop :=
  id d' = id d ∧ donor d' = donor d ∧ ngo d' = ngo d ∧ amount d' = amount d ∧
  timestamp d' = timestamp d ∧ message d' = message d ∧
  (proofCID d ≠ "" → proofCID d' = proofCID d).

(** An organisation record as it may become: the profile and the presence
    flag stay, the accumulators do not decrease. *)
Definition same_profile (n n' : NGO) : Prop :=
  wallet n' = wallet n ∧ name n' = name n ∧ metadataCID n' = metadataCID n ∧
  description n' = description n ∧ website n' = website n ∧
  contact n' = contact n ∧ exists_ n' = true ∧
  totalReceived n ≤ totalReceived n' ∧ totalWithdrawn n ≤ totalWithdrawn n'.

(** What every successful call respects, whatever it does. *)
Record evolves (s s' : State) : Prop := mkEvolves {
  ev_next : nextDonationId s ≤ nextDonationId s';
  ev_donations : ∀ i,
    1 ≤ i < nextDonationId s → frozen (donations s !!! i) (donations s' !!! i);
  ev_ngos : ∀ a,
    exists_ (ngos s !!! a) = true → same_profile (ngos s !!! a) (ngos s' !!! a);
  ev_ngoAddresses : ngoAddresses s `prefix_of` ngoAddresses s';
  ev_donationIds : donationIds s `prefix_of` donationIds s';
  ev_owner : owner s ≠ 0%N → owner s' ≠ 0%N
}.

(** What an event log says was donated to, and withdrawn by, [a]. *)
Definition event_credit (a : address) (e : Event) : Z :=
  match e with
  | DonationMade _ _ ngo amount _ => if bool_decide (ngo = a) then amount else 0
  | _ => 0
  end.

Definition event_debit (a : address) (e : Event) : Z :=
  match e with
  | WithdrawalMade ngo amount => if bool_decide (ngo = a) then amount else 0
  | _ => 0
  end.

Definition donated_to (a : address) (log : list Event) : Z :=
  foldr (fun e acc => event_credit a e + acc) 0 log.

Definition withdrawn_by (a : address) (log : list Event) : Z :=
  foldr (fun e acc => event_debit a e + acc) 0 log.

(** The funds an event log says moved in and out of the contract. *)
Definition event_flow (e : Event) : Z :=
  match e with
  | DonationMade _ _ _ amount _ => amount
  | WithdrawalMade _ amount => - amount
  | _ => 0
  end.

Definition net_flow (log : list Event) : Z :=
  foldr (fun e acc => event_flow e + acc) 0 log.

(** The accumulators and the balance moved by what the log says. *)
Definition accounts_for (s s' : State) (log : list Event) : Prop :=
  (∀ a, totalReceived (ngos s' !!! a) = totalReceived (ngos s !!! a) + donated_to a log) ∧
  (∀ a, totalWithdrawn (ngos s' !!! a) = totalWithdrawn (ngos s !!! a) + withdrawn_by a log) ∧
  balance s' = balance s + net_flow log.

(** The sum of the amounts of the donations [ids]. *)
Definition donation_total (s : State) (ids : list Z) : Z :=
  foldr (fun i acc => amount (donations s !!! i) + acc) 0 ids.

(** The records are well formed: a registered organisation is filed under
    its own wallet and has a name; a donation has a positive amount and a
    registered recipient; what an organisation received is the sum of the
    donations recorded for it. *)
Record Inv_records (s : State) : Prop := mkInvRecords {
  rec_ngo : ∀ a,
    exists_ (ngos s !!! a) = true →
    wallet (ngos s !!! a) = a ∧ name (ngos s !!! a) ≠ "";
  rec_donation : ∀ i,
    1 ≤ i < nextDonationId s →
    0 < amount (donations s !!! i) ∧
    exists_ (ngos s !!! ngo (donations s !!! i)) = true;
  rec_received : ∀ o,
    totalReceived (ngos s !!! o) = donation_total s (matching s o (donationIds s))
}.

(** ** Reasoning principles for the result monad *)

Arguments MAX_UINT256 : simpl never.

Lemma MAX_UINT256_pos : 0 < MAX_UINT256.
Proof. reflexivity. Qed.

Lemma bind_Ok {A B : Type} (r : Result A) (k : A → Result B) (b : B) :
  bind r k = Ok b → ∃ a, r = Ok a ∧ k a = Ok b.
Proof. destruct r; simpl; intros H; try discriminate. eauto. Qed.

Lemma require_Ok (cond : bool) (reason : string) (u : unit) :
  require cond reason = Ok u → cond = true.
Proof. destruct cond; simpl; [reflexivity | discriminate]. Qed.

Lemma require_true (reason : string) (cond : bool) :
  cond = true → require cond reason = Ok tt.
Proof. intros ->. reflexivity. Qed.

Lemma require_false (reason : string) (cond : bool) :
  cond = false → require cond reason = Revert reason.
Proof. intros ->. reflexivity. Qed.

Lemma checked_add_Ok (a b c : Z) :
  checked_add a b = Ok c → c = a + b ∧ a + b ≤ MAX_UINT256.
Proof.
  unfold checked_add. destruct (Z.leb_spec (a + b) MAX_UINT256); intros Heq.
  - injection Heq as <-. split; [reflexivity | assumption].
  - discriminate.
Qed.

Lemma checked_add_fits (a b : Z) :
  a + b ≤ MAX_UINT256 → checked_add a b = Ok (a + b).
Proof.
  intros H. unfold checked_add.
  destruct (Z.leb_spec (a + b) MAX_UINT256); [reflexivity | lia].
Qed.

Lemma checked_sub_Ok (a b c : Z) :
  checked_sub a b = Ok c → c = a - b ∧ b ≤ a.
Proof.
  unfold checked_sub. destruct (Z.leb_spec b a); intros Heq.
  - injection Heq as <-. split; [reflexivity | assumption].
  - discriminate.
Qed.

Lemma checked_sub_fits (a b : Z) : b ≤ a → checked_sub a b = Ok (a - b).
Proof.
  intros H. unfold checked_sub. destruct (Z.leb_spec b a); [reflexivity | lia].
Qed.

(** Peel the successful prefix of a call: every [bind] that returned [Ok]
    yields its intermediate value and the fact its guard established. *)
Ltac peel H :=
  repeat match type of H with
  | bind _ _ = Ok _ =>
      let a := fresh "ret" in
      let Hr := fresh "Hr" in
      let H' := fresh "H" in
      destruct (bind_Ok _ _ _ H) as (a & Hr & H'); clear H; rename H' into H;
      first [ apply require_Ok in Hr
            | apply checked_add_Ok in Hr as [-> Hr]
            | apply checked_sub_Ok in Hr as [-> Hr]
            | idtac ]
  end.

(** ** Mapping reads after writes *)

Lemma uint_at_insert (m : gmap N Z) (a b : address) (v : Z) :
  uint_at (<[a := v]> m) b = if decide (a = b) then v else uint_at m b.
Proof.
  unfold uint_at. destruct (decide (a = b)) as [-> | Hne].
  - by rewrite lookup_insert_eq.
  - by rewrite lookup_insert_ne.
Qed.

Lemma uint_at_empty (a : address) : uint_at ∅ a = 0.
Proof. unfold uint_at. by rewrite lookup_empty. Qed.

Lemma ngo_at_insert (m : gmap N NGO) (a b : address) (n : NGO) :
  <[a := n]> m !!! b = if decide (a = b) then n else m !!! b.
Proof.
  destruct (decide (a = b)) as [-> | Hne].
  - by rewrite lookup_total_insert_eq.
  - by rewrite lookup_total_insert_ne.
Qed.

Lemma donation_at_insert (m : gmap Z Donation) (i j : Z) (d : Donation) :
  <[i := d]> m !!! j = if decide (i = j) then d else m !!! j.
Proof.
  destruct (decide (i = j)) as [-> | Hne].
  - by rewrite lookup_total_insert_eq.
  - by rewrite lookup_total_insert_ne.
Qed.

(** ** The sum of the pending balances of the registered organisations *)

Lemma sum_pending_app (m : gmap N Z) (l k : list N) :
  sum_pending m (l ++ k) = sum_pending m l + sum_pending m k.
Proof.
  induction l as [| a l IH]; simpl; [reflexivity |].
  fold (sum_pending m (l ++ k)) (sum_pending m l). lia.
Qed.

Lemma sum_pending_insert_fresh (m : gmap N Z) (l : list N) (a : address) (v : Z) :
  a ∉ l → sum_pending (<[a := v]> m) l = sum_pending m l.
Proof.
  induction l as [| b l IH]; simpl; intros Hnot; [reflexivity |].
  apply not_elem_of_cons in Hnot as [Hne Hnot].
  fold (sum_pending (<[a := v]> m) l) (sum_pending m l).
  rewrite uint_at_insert, IH by assumption.
  destruct (decide (a = b)); [contradiction | reflexivity].
Qed.

Lemma sum_pending_insert (m : gmap N Z) (l : list N) (a : address) (v : Z) :
  NoDup l → a ∈ l →
  sum_pending (<[a := v]> m) l = sum_pending m l - uint_at m a + v.
Proof.
  induction l as [| b l IH]; simpl; intros Hnd Hin.
  - by apply elem_of_nil in Hin.
  - apply NoDup_cons in Hnd as [Hb Hnd].
    fold (sum_pending (<[a := v]> m) l) (sum_pending m l).
    rewrite uint_at_insert.
    destruct (decide (a = b)) as [-> | Hne].
    + rewrite sum_pending_insert_fresh by assumption. lia.
    + apply elem_of_cons in Hin as [? | Hin]; [contradiction |].
      rewrite IH by assumption. lia.
Qed.

Lemma sum_pending_zero (m : gmap N Z) (l : list N) :
  (∀ a, a ∈ l → uint_at m a = 0) → sum_pending m l = 0.
Proof.
  induction l as [| b l IH]; simpl; intros H; [reflexivity |].
  fold (sum_pending m l).
  rewrite H, IH; [reflexivity | | by left].
  intros a Ha. apply H. by right.
Qed.

Lemma constructor_inv (deployer : address) : Inv (constructor deployer).
Proof.
  pose proof MAX_UINT256_pos.
  split; simpl; intros; rewrite ?lookup_total_empty, ?uint_at_empty; simpl.
  - lia.
  - split; [intros Hin; by apply elem_of_nil in Hin | discriminate].
  - reflexivity.
  - constructor.
  - reflexivity.
  - lia.
  - reflexivity.
  - rewrite bool_decide_eq_false_2; [reflexivity | lia].
Qed.

Lemma registerNGO_inv sender name metadataCID description website contact s s' log :
  Inv s →
  registerNGO sender name metadataCID description website contact s = Ok (s', log) →
  Inv s'.
Proof.
  intros [Hacc Hreg Hun Hnd Hcus Hnext Hids Hid] H. unfold registerNGO in H.
  peel H. injection H as <- <-.
  apply negb_true_iff in Hr.
  pose proof (Hacc sender) as Hs. pose proof (Hun sender Hr) as Hp.
  assert (Hfresh : sender ∉ ngoAddresses s).
  { intros Hin. apply Hreg in Hin. congruence. }
  split; simpl.
  - intros a. rewrite ngo_at_insert. destruct (decide (sender = a)) as [<- | Hne].
    + simpl. pose proof MAX_UINT256_pos. lia.
    + apply Hacc.
  - intros a. rewrite ngo_at_insert, elem_of_app, list_elem_of_singleton, Hreg.
    destruct (decide (sender = a)) as [<- | Hne]; simpl; [tauto |].
    split; [intros [? | ?]; congruence | tauto].
  - intros a. rewrite ngo_at_insert.
    destruct (decide (sender = a)) as [<- | Hne]; simpl; [discriminate | apply Hun].
  - apply NoDup_app. repeat split; [assumption | | apply NoDup_singleton].
    intros a Ha Ha'. apply list_elem_of_singleton in Ha'. congruence.
  - unfold total_pending in *. simpl. rewrite sum_pending_app. simpl. lia.
  - assumption.
  - assumption.
  - assumption.
Qed.

Lemma approveNGO_inv sender ngoWallet approved s s' log :
  Inv s → approveNGO sender ngoWallet approved s = Ok (s', log) → Inv s'.
Proof.
  intros [Hacc Hreg Hun Hnd Hcus Hnext Hids Hid] H. unfold approveNGO in H.
  peel H. injection H as <- <-.
  split; simpl; try assumption.
  - intros a. rewrite ngo_at_insert. destruct (decide (ngoWallet = a)) as [<- | Hne].
    + apply (Hacc ngoWallet).
    + apply Hacc.
  - intros a. rewrite ngo_at_insert, Hreg.
    destruct (decide (ngoWallet = a)) as [<- | Hne]; simpl; tauto.
  - intros a. rewrite ngo_at_insert.
    destruct (decide (ngoWallet = a)) as [<- | Hne]; simpl; apply Hun.
Qed.

Lemma transferOwnership_inv sender newOwner s s' log :
  Inv s → transferOwnership sender newOwner s = Ok (s', log) → Inv s'.
Proof.
  intros [Hacc Hreg Hun Hnd Hcus Hnext Hids Hid] H. unfold transferOwnership in H.
  peel H. injection H as <- <-. by split.
Qed.

Lemma addProof_inv sender donationId cid s s' log :
  Inv s → addProof sender donationId cid s = Ok (s', log) → Inv s'.
Proof.
  intros [Hacc Hreg Hun Hnd Hcus Hnext Hids Hid] H. unfold addProof in H.
  peel H. injection H as <- <-.
  split; simpl; try assumption.
  intros i. rewrite donation_at_insert.
  destruct (decide (donationId = i)) as [<- | Hne]; simpl; apply Hid.
Qed.

Lemma seqZ_snoc (m n : Z) : 0 ≤ n → seqZ m (n + 1) = seqZ m n ++ [m + n].
Proof.
  intros Hn. rewrite seqZ_app by lia. reflexivity.
Qed.

Lemma donate_inv now sender value ngoWallet message s s' log :
  Inv s →
  donate now sender value ngoWallet message (set_balance (balance s + value) s)
    = Ok (s', log) →
  Inv s'.
Proof.
  intros [Hacc Hreg Hun Hnd Hcus Hnext Hids Hid] H. unfold donate in H.
  peel H. simpl in *. injection H as <- <-.
  apply Z.ltb_lt in Hr1.
  destruct (Hacc ngoWallet) as (Hw0 & Hp0 & Hsum & Hmax).
  split; simpl.
  - intros a. rewrite ngo_at_insert, uint_at_insert.
    destruct (decide (ngoWallet = a)) as [<- | Hne]; simpl; [lia | apply Hacc].
  - intros a. rewrite ngo_at_insert, Hreg.
    destruct (decide (ngoWallet = a)) as [<- | Hne]; simpl; tauto.
  - intros a. rewrite ngo_at_insert, uint_at_insert.
    destruct (decide (ngoWallet = a)) as [<- | Hne]; simpl; [congruence | apply Hun].
  - assumption.
  - unfold total_pending in *. simpl.
    rewrite sum_pending_insert; [lia | assumption | by apply Hreg].
  - lia.
  - rewrite Hids. replace (nextDonationId s + 1 - 1) with (nextDonationId s - 1 + 1) by lia.
    rewrite seqZ_snoc by lia. do 2 f_equal. lia.
  - intros i. rewrite donation_at_insert.
    destruct (decide (nextDonationId s = i)) as [<- | Hne]; simpl.
    + rewrite bool_decide_eq_true_2; [reflexivity | lia].
    + rewrite Hid. repeat case_bool_decide; lia.
Qed.

(** [withdraw] keeps the invariant for any recipient whose own code keeps
    it: the recipient runs on the state in which the debit and the transfer
    have both taken place. *)
Lemma withdraw_inv (callee : State → option (State * list Event))
    sender amount s s' log :
  (∀ s1 s2 log', Inv s1 → callee s1 = Some (s2, log') → Inv s2) →
  Inv s →
  withdraw (fun _ => call_value callee) sender amount s = Ok (s', log) →
  Inv s'.
Proof.
  intros Hcallee [Hacc Hreg Hun Hnd Hcus Hnext Hids Hid] H. unfold withdraw in H.
  peel H. simpl in *.
  apply andb_prop in Hr as [Hex Happ]. apply Z.ltb_lt in Hr0. apply Z.leb_le in Hr1.
  destruct (call_value _ _ _) as [[s2 log2] |] eqn:Hcall; [| discriminate].
  injection H as <- <-.
  unfold call_value in Hcall. simpl in Hcall.
  destruct (Z.leb_spec amount (balance s)) as [Hbal | Hbal]; [| discriminate].
  apply Hcallee in Hcall; [assumption |].
  destruct (Hacc sender) as (Hw0 & Hp0 & Hsum & Hmax).
  split; simpl; try assumption.
  - intros a. rewrite ngo_at_insert, uint_at_insert.
    destruct (decide (sender = a)) as [<- | Hne]; simpl; [lia | apply Hacc].
  - intros a. rewrite ngo_at_insert, Hreg.
    destruct (decide (sender = a)) as [<- | Hne]; simpl; tauto.
  - intros a. rewrite ngo_at_insert, uint_at_insert.
    destruct (decide (sender = a)) as [<- | Hne]; simpl; [congruence | apply Hun].
  - unfold total_pending in *. simpl.
    rewrite sum_pending_insert; [lia | assumption | by apply Hreg].
Qed.

(** Every call, whatever the recipients of its withdrawals do, keeps the
    invariant; so does the code of every recipient. *)
Lemma exec_receive_inv :
  (∀ c now sender value s s' log,
     Inv s → exec now sender value c s = Ok (s', log) → Inv s') ∧
  (∀ r now s s' log,
     Inv s → receive now r s = Some (s', log) → Inv s').
Proof.
  apply Call_Receiver_comb; simpl.
  - intros ????? now sender value s s' log HI H. peel H. eauto using registerNGO_inv.
  - intros ?? now sender value s s' log HI H. peel H. eauto using approveNGO_inv.
  - intros ?? now sender value s s' log HI H. eauto using donate_inv.
  - intros ?? now sender value s s' log HI H. peel H. eauto using addProof_inv.
  - intros amount r IH now sender value s s' log HI H. peel H.
    eapply withdraw_inv; [| exact HI | exact H].
    intros s1 s2 log' HI1 Hrun. eapply IH; eassumption.
  - intros ? now sender value s s' log HI H. peel H. eauto using transferOwnership_inv.
  - intros now s s' log HI H. by injection H as <- <-.
  - discriminate.
  - intros sender value c IHc rest IHr now s s' log HI H.
    destruct (exec now sender value c s) as [[s1 log1] | |] eqn:Hc; [| by eauto ..].
    destruct (receive now rest s1) as [[s2 log2] |] eqn:Hrest; [| discriminate].
    injection H as <- <-. eauto.
Qed.

Lemma apply_tx_inv (s : State) (tx : Tx) : Inv s → Inv (apply_tx s tx).
Proof.
  intros HI. unfold apply_tx, transact.
  destruct (exec _ _ _ _ s) as [[s' log] | |] eqn:H; [| assumption | assumption].
  eapply (proj1 exec_receive_inv); eassumption.
Qed.

(** Funds credited without a call only raise the balance. *)
Lemma force_funds_inv (s : State) (v : N) : Inv s → Inv (force_funds v s).
Proof.
  intros [Hacc Hreg Hun Hnd Hcus Hnext Hids Hid]. split; try assumption.
  unfold total_pending in *. simpl. lia.
Qed.

Lemma reachable_inv (s : State) : reachable s → Inv s.
Proof.
  induction 1 as [deployer | s tx _ IH | s v _ IH];
    [apply constructor_inv | by apply apply_tx_inv | by apply force_funds_inv].
Qed.

(** ** The two scans of [getDonationsByNGO] *)

Section Scan.
Variable s : State.
Variable ngoWallet : address.

Local Abbreviation matching := (matching s ngoWallet).


Lemma matching_cons_true i l :
  ngo (donations s !!! i) = ngoWallet → matching (i :: l) = i :: matching l.
Proof. intros H. unfold matching. by rewrite filter_cons_True. Qed.

Lemma matching_cons_false i l :
  ngo (donations s !!! i) ≠ ngoWallet → matching (i :: l) = matching l.
Proof. intros H. unfold matching. by rewrite filter_cons_False. Qed.

Lemma matching_length l : (length (matching l) ≤ length l)%nat.
Proof. apply length_filter. Qed.

Lemma count_loop l : ∀ count n,
  count + Z.of_nat (length (matching l)) ≤ MAX_UINT256 →
  for_each (count_body s ngoWallet) l count n
    = Ok (count + Z.of_nat (length (matching l)), (n + length l)%nat).
Proof.
  induction l as [| i l IH]; intros count n Hfit; simpl.
  - do 2 f_equal; lia.
  - unfold count_body at 1. case_bool_decide as Hi.
    + rewrite matching_cons_true in * by assumption. simpl in Hfit.
      rewrite checked_add_fits by lia. simpl.
      rewrite IH by lia. do 2 f_equal; simpl; lia.
    + rewrite matching_cons_false in * by assumption. simpl.
      rewrite IH by lia. do 2 f_equal; lia.
Qed.

Lemma fill_loop l : ∀ pre k n,
  (length (matching l) ≤ k)%nat →
  Z.of_nat (length pre + length (matching l)) ≤ MAX_UINT256 →
  for_each (fill_body s ngoWallet) l (pre ++ replicate k 0, Z.of_nat (length pre)) n
    = Ok ((pre ++ matching l ++ replicate (k - length (matching l)) 0,
           Z.of_nat (length pre + length (matching l))),
          (n + length l)%nat).
Proof.
  induction l as [| i l IH]; intros pre k n Hk Hfit; simpl.
  - by rewrite Nat.sub_0_r, !Nat.add_0_r.
  - case_bool_decide as Hi.
    + rewrite matching_cons_true in * by assumption. simpl in Hk, Hfit.
      destruct k as [| k]; [lia |].
      rewrite checked_add_fits by lia. simpl.
      unfold array_store. rewrite length_app. simpl length.
      rewrite length_replicate.
      destruct (Z.ltb_spec (Z.of_nat (length pre)) (Z.of_nat (length pre + S k)));
        [| lia].
      simpl. rewrite Nat2Z.id.
      rewrite insert_app_r_alt, Nat.sub_diag by lia. simpl.
      replace (pre ++ i :: replicate k 0) with ((pre ++ [i]) ++ replicate k 0)
        by (by rewrite <- app_assoc).
      replace (Z.of_nat (length pre) + 1) with (Z.of_nat (length (pre ++ [i])))
        by (rewrite length_app; simpl; lia).
      rewrite IH; rewrite ?length_app; simpl; [| lia | lia].
      rewrite <- app_assoc. simpl. do 4 f_equal; lia.
    + rewrite matching_cons_false in * by assumption. simpl.
      rewrite IH by assumption. do 2 f_equal; lia.
Qed.

Lemma scan_correct :
  Z.of_nat (length (donationIds s)) ≤ MAX_UINT256 →
  getDonationsByNGO_scan ngoWallet s
    = Ok (matching (donationIds s), (2 * length (donationIds s))%nat).
Proof.
  intros Hlen. pose proof (matching_length (donationIds s)) as Hm.
  unfold getDonationsByNGO_scan.
  rewrite count_loop by lia. simpl. rewrite Z.add_0_l, Nat2Z.id.
  pose proof (fill_loop (donationIds s) [] (length (matching (donationIds s)))
                (length (donationIds s))) as Hfill.
  simpl in Hfill. change (Z.of_nat 0) with 0 in Hfill. rewrite Hfill by lia. simpl.
  rewrite Nat.sub_diag. simpl. rewrite app_nil_r. do 2 f_equal. lia.
Qed.
End Scan.

Lemma reachable_ids_length (s : State) :
  Inv s → Z.of_nat (length (donationIds s)) ≤ MAX_UINT256.
Proof.
  intros HI. rewrite (inv_ids s HI), length_seqZ.
  pose proof (inv_next s HI). lia.
Qed.

(** ** The concrete run is reachable *)

Lemma registered_reachable : reachable Scenario.registered.
Proof. apply reachable_tx, reachable_deployed. Qed.

Lemma vetted_reachable : reachable Scenario.vetted.
Proof. apply reachable_tx, registered_reachable. Qed.

Lemma funded_reachable : reachable Scenario.funded.
Proof. apply reachable_tx, vetted_reachable. Qed.

Lemma busy_reachable : reachable Scenario.busy.
Proof. apply reachable_tx, reachable_tx, funded_reachable. Qed.

(** ** Accounts and funds held *)

(** C1. Conservation: in every state reachable by transactions (whatever
    the recipients of withdrawals do while they are being paid), for every
    organisation [o], [totalWithdrawn(o) <= totalReceived(o)],
    [pendingWithdrawal(o) + totalWithdrawn(o) = totalReceived(o)], and
    [pendingWithdrawal(o) >= 0]. *)
Theorem ledger_conservation (s : State) (o : address) :
  reachable s →
  totalWithdrawn (ngos s !!! o) ≤ totalReceived (ngos s !!! o) ∧
  getPendingWithdrawal o s + totalWithdrawn (ngos s !!! o) = totalReceived (ngos s !!! o) ∧
  0 ≤ getPendingWithdrawal o s.
Proof.
  intros Hs. apply reachable_inv in Hs.
  destruct (inv_accounts s Hs o) as (Hw & Hp & Hsum & _).
  unfold getPendingWithdrawal. lia.
Qed.

Lemma ledger_conservation_witness :
  reachable Scenario.funded ∧
  getPendingWithdrawal Scenario.alpha Scenario.funded
    + totalWithdrawn (ngos Scenario.funded !!! Scenario.alpha)
  = totalReceived (ngos Scenario.funded !!! Scenario.alpha).
Proof.
  split; [exact funded_reachable |].
  apply (ledger_conservation Scenario.funded Scenario.alpha). exact funded_reachable.
Defined.

(** ** Failed calls *)

(** C5. [donate] to an organisation that exists but is not approved fails
    with "NGO is not approved", and the transaction changes nothing: the
    whole state (donation records, [totalReceived], pending balances and
    the next donation id) is as before. *)
Theorem donate_unapproved (s : State) (now : Z) (sender : address) (value : Z)
    (ngoWallet : address) (message : string) :
  exists_ (ngos s !!! ngoWallet) = true →
  approved (ngos s !!! ngoWallet) = false →
  let tx := mkTx now sender value (Donate ngoWallet message) in
  transact tx s = Revert "NGO is not approved" ∧
  apply_tx s tx = s ∧
  donations (apply_tx s tx) = donations s ∧
  totalReceived (ngos (apply_tx s tx) !!! ngoWallet) = totalReceived (ngos s !!! ngoWallet) ∧
  getPendingWithdrawal ngoWallet (apply_tx s tx) = getPendingWithdrawal ngoWallet s ∧
  nextDonationId (apply_tx s tx) = nextDonationId s.
Proof.
  intros Hex Happ tx.
  assert (Hrev : transact tx s = Revert "NGO is not approved").
  { unfold transact, tx. simpl. unfold donate, ngoExists. simpl.
    rewrite Hex, Happ. reflexivity. }
  assert (Hsame : apply_tx s tx = s) by (unfold apply_tx; by rewrite Hrev).
  rewrite Hsame. repeat split; assumption.
Qed.

Lemma donate_unapproved_witness :
  transact (mkTx 101 Scenario.donor1 100 (Donate Scenario.alpha "hi")) Scenario.registered
  = Revert "NGO is not approved".
Proof.
  apply (donate_unapproved Scenario.registered 101 Scenario.donor1 100 Scenario.alpha "hi");
    reflexivity.
Defined.

(** C8. A [registerNGO] call from an identity that already has a record
    fails with "NGO already registered" and leaves the whole state, hence
    the existing record and the list of registered organisations, as it
    was. *)
Theorem register_twice (s : State) (now : Z) (sender : address)
    (name metadataCID description website contact : string) :
  exists_ (ngos s !!! sender) = true →
  let tx := mkTx now sender 0
              (RegisterNGO name metadataCID description website contact) in
  transact tx s = Revert "NGO already registered" ∧
  apply_tx s tx = s ∧
  ngos (apply_tx s tx) !!! sender = ngos s !!! sender ∧
  getPendingWithdrawal sender (apply_tx s tx) = getPendingWithdrawal sender s ∧
  ngoAddresses (apply_tx s tx) = ngoAddresses s.
Proof.
  intros Hex tx.
  assert (Hrev : transact tx s = Revert "NGO already registered").
  { unfold transact, tx. simpl. unfold registerNGO. rewrite Hex. reflexivity. }
  assert (Hsame : apply_tx s tx = s) by (unfold apply_tx; by rewrite Hrev).
  rewrite Hsame. repeat split; assumption.
Qed.

Lemma register_twice_witness :
  transact (mkTx 101 Scenario.alpha 0 (RegisterNGO "Alpha Two" "cid" "" "" ""))
           Scenario.registered
  = Revert "NGO already registered".
Proof.
  apply (register_twice Scenario.registered 101 Scenario.alpha "Alpha Two" "cid" "" "" "").
  reflexivity.
Defined.

(** A successful registration sets the presence flag of the caller, so
    the caller can never register again. *)
Lemma registerNGO_exists sender name metadataCID description website contact s s' log :
  registerNGO sender name metadataCID description website contact s = Ok (s', log) →
  exists_ (ngos s' !!! sender) = true.
Proof.
  intros H. unfold registerNGO in H. peel H. injection H as <- <-.
  simpl. by rewrite lookup_total_insert_eq.
Qed.

(** ** Donation ids *)

Lemma created_ids_app (log log' : list Event) :
  created_ids (log ++ log') = created_ids log ++ created_ids log'.
Proof. unfold created_ids. apply omap_app. Qed.

Lemma seqZ_glue (a b c : Z) :
  a ≤ b → b ≤ c → seqZ a (b - a) ++ seqZ b (c - b) = seqZ a (c - a).
Proof.
  intros Hab Hbc. replace (c - a) with ((b - a) + (c - b)) by lia.
  rewrite seqZ_app by lia. do 2 f_equal. lia.
Qed.

Lemma numbers_from_refl (s s' : State) :
  nextDonationId s' = nextDonationId s → numbers_from s s' [].
Proof. intros H. split; [lia |]. rewrite H, seqZ_nil by lia. reflexivity. Qed.

Lemma numbers_from_trans (s1 s2 s3 : State) (log log' : list Event) :
  numbers_from s1 s2 log → numbers_from s2 s3 log' → numbers_from s1 s3 (log ++ log').
Proof.
  intros [H1 E1] [H2 E2]. split; [lia |].
  rewrite created_ids_app, E1, E2. by apply seqZ_glue.
Qed.

Lemma exec_receive_ids :
  (∀ c now sender value s s' log,
     exec now sender value c s = Ok (s', log) → numbers_from s s' log) ∧
  (∀ r now s s' log,
     receive now r s = Some (s', log) → numbers_from s s' log).
Proof.
  apply Call_Receiver_comb; simpl.
  - intros ????? now sender value s s' log H. peel H. unfold registerNGO in H.
    peel H. injection H as <- <-. split; simpl; [lia |]. by rewrite Z.sub_diag.
  - intros ?? now sender value s s' log H. peel H. unfold approveNGO in H.
    peel H. injection H as <- <-. split; simpl; [lia |]. by rewrite Z.sub_diag.
  - intros ?? now sender value s s' log H. unfold donate in H.
    peel H. simpl in *. injection H as <- <-. split; simpl; [lia |].
    replace (nextDonationId s + 1 - nextDonationId s) with 1 by lia. reflexivity.
  - intros ?? now sender value s s' log H. peel H. unfold addProof in H.
    peel H. injection H as <- <-. split; simpl; [lia |]. by rewrite Z.sub_diag.
  - intros amount r IH now sender value s s' log H. peel H. unfold withdraw in H.
    peel H. simpl in H.
    destruct (call_value _ _ _) as [[s2 log2] |] eqn:Hcall; [| discriminate].
    injection H as <- <-. unfold call_value in Hcall.
    destruct (amount <=? balance _); [| discriminate].
    apply IH in Hcall.
    rewrite <- (app_nil_r log2), <- app_assoc.
    eapply numbers_from_trans; [| apply numbers_from_refl; reflexivity].
    exact Hcall.
  - intros ? now sender value s s' log H. peel H. unfold transferOwnership in H.
    peel H. injection H as <- <-. by apply numbers_from_refl.
  - intros now s s' log H. injection H as <- <-. by apply numbers_from_refl.
  - discriminate.
  - intros sender value c IHc rest IHr now s s' log H.
    destruct (exec now sender value c s) as [[s1 log1] | |] eqn:Hc; [| by eauto ..].
    destruct (receive now rest s1) as [[s2 log2] |] eqn:Hrest; [| discriminate].
    injection H as <- <-. eauto using numbers_from_trans.
Qed.

Lemma run_ids (steps : list Step) : ∀ s, numbers_from s (run s steps).1 (run s steps).2.
Proof.
  induction steps as [| [tx | v] steps IH]; intros s; simpl.
  - by apply numbers_from_refl.
  - unfold transact.
    destruct (exec _ _ _ _ s) as [[s1 log1] | |] eqn:Hc; [| apply IH ..].
    specialize (IH s1). destruct (run s1 steps) as [s2 log2]. simpl in *.
    eapply numbers_from_trans; [| exact IH].
    eapply (proj1 exec_receive_ids); eassumption.
  - exact (IH (force_funds v s)).
Qed.

Lemma run_reachable (steps : list Step) : ∀ s, reachable s → reachable (run s steps).1.
Proof.
  induction steps as [| [tx | v] steps IH]; intros s Hs; simpl; [assumption | |].
  - pose proof (reachable_tx s tx Hs) as Hstep. unfold apply_tx in Hstep.
    destruct (transact tx s) as [[s1 log1] | |]; [| by apply IH ..].
    specialize (IH s1 Hstep). by destruct (run s1 steps).
  - by apply IH, reachable_forced.
Qed.

(** C2. Over any history from deployment, the ids of the
    donations that were created are exactly 1, 2, 3, ... in order of
    creation, up to the counter, and they are the contents of
    [donationIds]. A successful [donate] takes the current value of the
    counter as its id and advances the counter by one; a [donate] that does
    not succeed leaves the counter as it was, and [donate] to an unknown or
    unapproved organisation, or of a non-positive amount, does not succeed. *)
Theorem donation_ids_dense (deployer : address) (steps : list Step) :
  let s := (run (constructor deployer) steps).1 in
  let log := (run (constructor deployer) steps).2 in
  created_ids log = seqZ 1 (nextDonationId s - 1) ∧
  donationIds s = created_ids log ∧
  (∀ now sender value ngoWallet message,
     match exec now sender value (Donate ngoWallet message) s with
     | Ok (s', log') =>
         log' = [DonationMade (nextDonationId s) sender ngoWallet value message] ∧
         nextDonationId s' = nextDonationId s + 1 ∧
         donationIds s' = donationIds s ++ [nextDonationId s]
     | _ =>
         nextDonationId (apply_tx s (mkTx now sender value (Donate ngoWallet message)))
         = nextDonationId s
     end) ∧
  (∀ now sender value ngoWallet message,
     exists_ (ngos s !!! ngoWallet) = false ∨
     approved (ngos s !!! ngoWallet) = false ∨
     value ≤ 0 →
     ∃ reason, exec now sender value (Donate ngoWallet message) s = Revert reason).
Proof.
  intros s log.
  assert (Hs : Inv s).
  { apply reachable_inv, run_reachable, reachable_deployed. }
  destruct (run_ids steps (constructor deployer)) as [_ Hids]. simpl in Hids.
  fold s log in Hids.
  split; [exact Hids |]. split; [by rewrite Hids; apply (inv_ids s Hs) |]. split.
  - intros now sender value ngoWallet message.
    destruct (exec _ _ _ _ s) as [[s' log'] | |] eqn:H.
    + simpl in H. unfold donate in H. peel H. simpl in *.
      by injection H as <- <-.
    + unfold apply_tx, transact. simpl msg_call. simpl block_timestamp.
      simpl msg_sender. simpl msg_value. by rewrite H.
    + unfold apply_tx, transact. simpl msg_call. simpl block_timestamp.
      simpl msg_sender. simpl msg_value. by rewrite H.
  - intros now sender value ngoWallet message Hbad. simpl.
    unfold donate, ngoExists. simpl.
    destruct (exists_ (ngos s !!! ngoWallet)); simpl; [| by eauto].
    destruct (approved (ngos s !!! ngoWallet)); simpl; [| by eauto].
    destruct Hbad as [? | [? | Hv]]; try discriminate.
    destruct (Z.ltb_spec 0 value); [lia |]. simpl. by eauto.
Qed.

Lemma donation_ids_dense_witness :
  exec 103 Scenario.donor1 0 (Donate Scenario.alpha "")
       (run (constructor Scenario.admin)
            [Transaction (mkTx 100 Scenario.alpha 0 (RegisterNGO "Alpha Relief" "" "desc" "" ""));
             Transaction (mkTx 101 Scenario.admin 0 (ApproveNGO Scenario.alpha true));
             Transaction (mkTx 102 Scenario.donor1 100 (Donate Scenario.alpha "hi"))]).1
  = Revert "Donation amount must be greater than 0".
Proof.
  destruct (donation_ids_dense Scenario.admin
              [Transaction (mkTx 100 Scenario.alpha 0 (RegisterNGO "Alpha Relief" "" "desc" "" ""));
               Transaction (mkTx 101 Scenario.admin 0 (ApproveNGO Scenario.alpha true));
               Transaction (mkTx 102 Scenario.donor1 100 (Donate Scenario.alpha "hi"))])
    as (_ & _ & _ & Hfail).
  destruct (Hfail 103 Scenario.donor1 0 Scenario.alpha "") as [reason Hr].
  - right. right. lia.
  - reflexivity.
Defined.

(** ** Withdrawal *)

(** Once its checks pass, [withdraw] debits the caller and then stands or
    falls with the external call made on the debited state. *)
Lemma withdraw_debits (call : address → Z → State → option (State * list Event))
    (sender : address) (amount : Z) (s : State) :
  Inv s →
  exists_ (ngos s !!! sender) = true →
  approved (ngos s !!! sender) = true →
  0 < amount ≤ getPendingWithdrawal sender s →
  withdraw call sender amount s =
    match call sender amount (debited sender amount s) with
    | None => Revert "Withdrawal failed"
    | Some (s', log) => Ok (s', log ++ [WithdrawalMade sender amount])
    end.
Proof.
  intros HI Hex Happ [Hpos Hle]. unfold getPendingWithdrawal in Hle.
  destruct (inv_accounts s HI sender) as (Hw & Hp & Hsum & Hmax).
  unfold withdraw, onlyApprovedNGO. rewrite Hex, Happ. simpl.
  rewrite (require_true _ (0 <? amount)) by (by apply Z.ltb_lt). simpl.
  rewrite (require_true _ (amount <=? _)) by (by apply Z.leb_le). simpl.
  rewrite checked_sub_fits by assumption. simpl.
  rewrite checked_add_fits by lia. simpl.
  reflexivity.
Qed.

(** C3. When an approved organisation withdraws [0 < amount <= pending] and
    the external payout fails (the contract cannot cover it, or the code of
    the recipient fails, whatever it did before), the call made on the
    debited state is undone together with the debit: [withdraw] reverts
    with "Withdrawal failed" and the state after the transaction is the state
    before it, so the pending balance, [totalWithdrawn] and [totalReceived]
    of the caller have their values from before the call. *)
Theorem withdraw_failed_payout (s : State) (now : Z) (sender : address) (amount : Z)
    (recipient : Receiver) :
  reachable s →
  exists_ (ngos s !!! sender) = true →
  approved (ngos s !!! sender) = true →
  0 < amount ≤ getPendingWithdrawal sender s →
  call_value (receive now recipient) amount (debited sender amount s) = None →
  let tx := mkTx now sender 0 (Withdraw amount recipient) in
  getPendingWithdrawal sender (debited sender amount s)
    = getPendingWithdrawal sender s - amount ∧
  transact tx s = Revert "Withdrawal failed" ∧
  apply_tx s tx = s ∧
  getPendingWithdrawal sender (apply_tx s tx) = getPendingWithdrawal sender s ∧
  totalWithdrawn (ngos (apply_tx s tx) !!! sender) = totalWithdrawn (ngos s !!! sender) ∧
  totalReceived (ngos (apply_tx s tx) !!! sender) = totalReceived (ngos s !!! sender).
Proof.
  intros Hs Hex Happ Hamt Hfail tx. apply reachable_inv in Hs.
  assert (Hrev : transact tx s = Revert "Withdrawal failed").
  { unfold transact, tx. simpl.
    rewrite withdraw_debits by assumption. cbv beta. by rewrite Hfail. }
  assert (Hsame : apply_tx s tx = s) by (unfold apply_tx; by rewrite Hrev).
  rewrite Hsame. repeat split; try assumption.
  unfold getPendingWithdrawal, debited. simpl.
  rewrite uint_at_insert. by rewrite decide_True.
Qed.

Lemma withdraw_failed_payout_witness :
  transact (mkTx 103 Scenario.alpha 0 (Withdraw 40 Fail)) Scenario.funded
    = Revert "Withdrawal failed" ∧
  getPendingWithdrawal Scenario.alpha
    (apply_tx Scenario.funded (mkTx 103 Scenario.alpha 0 (Withdraw 40 Fail))) = 100.
Proof.
  destruct (withdraw_failed_payout Scenario.funded 103 Scenario.alpha 40 Fail)
    as (_ & Hrev & _ & Hpend & _).
  - exact funded_reachable.
  - reflexivity.
  - reflexivity.
  - vm_compute. split; [reflexivity | discriminate].
  - reflexivity.
  - split; [exact Hrev | rewrite Hpend; reflexivity].
Defined.

(** The recipient that calls back into [withdraw] while it is being paid
    and then fails loses everything it did: the transaction reverts. *)
Example withdraw_reentrant_failure :
  apply_tx Scenario.funded
    (mkTx 103 Scenario.alpha 0
       (Withdraw 40 (Reenter Scenario.alpha 0 (Withdraw 60 Accept) Fail)))
  = Scenario.funded.
Proof. reflexivity. Qed.

(** The recipient that calls back into [withdraw] and accepts sees the
    debited balance: it cannot take more than what is left. *)
Example withdraw_reentrant_success :
  getPendingWithdrawal Scenario.alpha
    (apply_tx Scenario.funded
       (mkTx 103 Scenario.alpha 0
          (Withdraw 40 (Reenter Scenario.alpha 0 (Withdraw 100 Accept)
                          (Reenter Scenario.alpha 0 (Withdraw 60 Accept) Accept)))))
  = 0.
Proof. reflexivity. Qed.

(** The funds held always cover the pending balance of an organisation,
    so the transfer of a withdrawal within the pending balance never fails
    for lack of funds: only the recipient can make the payout fail. *)
Lemma sum_pending_nonneg (m : gmap N Z) (l : list N) :
  (∀ b, 0 ≤ uint_at m b) → 0 ≤ sum_pending m l.
Proof.
  intros Hm. induction l as [| b l IH]; simpl; [lia |].
  fold (sum_pending m l). specialize (Hm b). lia.
Qed.

Lemma sum_pending_ge (m : gmap N Z) (l : list N) (a : address) :
  (∀ b, 0 ≤ uint_at m b) → a ∈ l → uint_at m a ≤ sum_pending m l.
Proof.
  intros Hm. induction l as [| b l IH]; simpl; intros Hin.
  - by apply elem_of_nil in Hin.
  - fold (sum_pending m l). pose proof (sum_pending_nonneg m l Hm).
    apply elem_of_cons in Hin as [-> | Hin]; [lia |].
    specialize (IH Hin). specialize (Hm b). lia.
Qed.

Lemma balance_covers_pending (s : State) (a : address) :
  Inv s → getPendingWithdrawal a s ≤ balance s.
Proof.
  intros HI. pose proof (inv_custody s HI) as Hcus.
  unfold getPendingWithdrawal, total_pending in *.
  assert (Hm : ∀ b, 0 ≤ uint_at (pendingWithdrawals s) b).
  { intros b. by destruct (inv_accounts s HI b) as (_ & ? & _). }
  destruct (exists_ (ngos s !!! a)) eqn:He.
  - pose proof (sum_pending_ge (pendingWithdrawals s) (ngoAddresses s) a Hm
                  (proj2 (inv_registered s HI a) He)). lia.
  - rewrite (inv_unregistered s HI a He).
    pose proof (sum_pending_nonneg (pendingWithdrawals s) (ngoAddresses s) Hm). lia.
Qed.

Lemma withdraw_accepted (s : State) (now : Z) (sender : address) (amount : Z) :
  reachable s →
  exists_ (ngos s !!! sender) = true →
  approved (ngos s !!! sender) = true →
  0 < amount ≤ getPendingWithdrawal sender s →
  transact (mkTx now sender 0 (Withdraw amount Accept)) s
  = Ok (set_balance (balance s - amount) (debited sender amount s),
        [WithdrawalMade sender amount]).
Proof.
  intros Hs Hex Happ Hamt. apply reachable_inv in Hs.
  pose proof (balance_covers_pending s sender Hs) as Hbal.
  unfold transact. simpl. rewrite withdraw_debits by assumption. cbv beta.
  unfold call_value. simpl.
  destruct (Z.leb_spec amount (balance s)); [reflexivity | lia].
Qed.

(** ** The scenarios of the specification *)

Example scenario_ledger :
  let donation := mkTx 102 Scenario.donor1 100 (Donate Scenario.alpha "hi") in
  let paid := apply_tx Scenario.funded (mkTx 103 Scenario.alpha 0 (Withdraw 40 Accept)) in
  let proven := apply_tx paid (mkTx 104 Scenario.alpha 0 (AddProof 1 "cidXYZ")) in
  transact donation Scenario.registered = Revert "NGO is not approved" ∧
  transact donation Scenario.vetted
    = Ok (Scenario.funded, [DonationMade 1 Scenario.donor1 Scenario.alpha 100 "hi"]) ∧
  totalReceived (ngos Scenario.funded !!! Scenario.alpha) = 100 ∧
  getPendingWithdrawal Scenario.alpha Scenario.funded = 100 ∧
  totalWithdrawn (ngos paid !!! Scenario.alpha) = 40 ∧
  getPendingWithdrawal Scenario.alpha paid = 60 ∧
  getContractBalance paid = 60 ∧
  transact (mkTx 105 Scenario.alpha 0 (AddProof 1 "other")) proven
    = Revert "Proof already added" ∧
  (do d <- getDonation 1 proven; Ok (proofCID d)) = Ok "cidXYZ".
Proof. vm_compute. repeat split; reflexivity. Qed.

Example scenario_ownership :
  let handed := apply_tx Scenario.registered
                  (mkTx 101 Scenario.admin 0 (TransferOwnership Scenario.donor1)) in
  transact (mkTx 102 Scenario.admin 0 (ApproveNGO Scenario.alpha true)) handed
    = Revert "Only owner can call this function" ∧
  approved (ngos (apply_tx handed (mkTx 102 Scenario.donor1 0
                                     (ApproveNGO Scenario.alpha true)))
              !!! Scenario.alpha) = true.
Proof. vm_compute. repeat split; reflexivity. Qed.

(** ** Proofs of impact *)

(** C10. When the approved recipient organisation adds an empty proof to a
    donation that has none, the call succeeds and emits [ProofAdded], the
    stored proof remains empty, and [addProof] on the same donation then
    succeeds again, with any reference: the guard reads only the stored
    proof. *)
Theorem addProof_empty_repeatable (s : State) (sender : address) (donationId : Z) :
  exists_ (ngos s !!! sender) = true →
  approved (ngos s !!! sender) = true →
  id (donations s !!! donationId) ≠ 0 →
  ngo (donations s !!! donationId) = sender →
  proofCID (donations s !!! donationId) = "" →
  ∃ s',
    addProof sender donationId "" s = Ok (s', [ProofAdded donationId ""]) ∧
    proofCID (donations s' !!! donationId) = "" ∧
    ∀ cid, ∃ s'',
      addProof sender donationId cid s' = Ok (s'', [ProofAdded donationId cid]) ∧
      proofCID (donations s'' !!! donationId) = cid.
Proof.
  intros Hex Happ Hid Hngo Hproof.
  assert (Hstep : ∀ (t : State) cid,
            exists_ (ngos t !!! sender) = true →
            approved (ngos t !!! sender) = true →
            id (donations t !!! donationId) ≠ 0 →
            ngo (donations t !!! donationId) = sender →
            proofCID (donations t !!! donationId) = "" →
            addProof sender donationId cid t
            = Ok (set_donation donationId
                    (set_proofCID cid (donations t !!! donationId)) t,
                  [ProofAdded donationId cid])).
  { intros t cid Hex' Happ' Hid' Hngo' Hproof'.
    unfold addProof, onlyApprovedNGO. rewrite Hex', Happ'. simpl.
    rewrite (require_true _ (negb _)) by (by apply negb_true_iff, Z.eqb_neq). simpl.
    rewrite bool_decide_eq_true_2 by assumption. simpl.
    rewrite Hproof'. reflexivity. }
  eexists. split; [by apply Hstep |]. simpl.
  rewrite lookup_total_insert_eq. split; [reflexivity |].
  intros cid. eexists. split.
  - apply Hstep; simpl; rewrite ?lookup_total_insert_eq; simpl; assumption || reflexivity.
  - simpl. by rewrite lookup_total_insert_eq.
Qed.

Lemma addProof_empty_repeatable_witness :
  ∃ s', addProof Scenario.alpha 1 "" Scenario.funded = Ok (s', [ProofAdded 1 ""]) ∧
        proofCID (donations s' !!! 1) = "".
Proof.
  destruct (addProof_empty_repeatable Scenario.funded Scenario.alpha 1)
    as (s' & Hok & Hempty & _).
  - reflexivity.
  - reflexivity.
  - vm_compute. discriminate.
  - reflexivity.
  - reflexivity.
  - exists s'. split; assumption.
Defined.

(** A proof that is not empty is kept: every later [addProof] on the
    donation fails with "Proof already added" unless an earlier check
    already rejected it. *)
Lemma addProof_write_once (s : State) (sender : address) (donationId : Z) (cid : string) :
  proofCID (donations s !!! donationId) ≠ "" →
  ∃ reason, addProof sender donationId cid s = Revert reason.
Proof.
  intros Hset. unfold addProof, onlyApprovedNGO.
  destruct (_ && _); simpl; [| by eauto].
  destruct (negb _); simpl; [| by eauto].
  destruct (bool_decide _); simpl; [| by eauto].
  destruct (proofCID (donations s !!! donationId)) as [| c rest]; [contradiction |].
  unfold bytes_length. simpl String.length.
  rewrite (require_false _ (_ =? 0)) by (apply Z.eqb_neq; lia). simpl. by eauto.
Qed.

(** C6. On a donation of the concrete run, [addProof] with an empty
    reference succeeds, and a second [addProof] on the same donation
    succeeds as well instead of failing with "Proof already added". *)
Theorem addProof_succeeds_twice :
  let first := mkTx 103 Scenario.alpha 0 (AddProof 1 "") in
  let second := mkTx 104 Scenario.alpha 0 (AddProof 1 "cidXYZ") in
  let s1 := apply_tx Scenario.funded first in
  transact first Scenario.funded = Ok (s1, [ProofAdded 1 ""]) ∧
  transact second s1 = Ok (apply_tx s1 second, [ProofAdded 1 "cidXYZ"]) ∧
  proofCID (donations (apply_tx s1 second) !!! 1) = "cidXYZ".
Proof. vm_compute. repeat split; reflexivity. Qed.

(** ** Donations of an organisation *)

(** C7. In every reachable state [getDonationsByNGO(o)] returns the ids
    1, 2, ..., in increasing (creation) order, of exactly the donations
    whose record names [o] as its organisation: an id is returned if and
    only if its donation exists and its [ngo] field is [o]. *)
Theorem getDonationsByNGO_exact (s : State) (o : address) :
  reachable s →
  getDonationsByNGO o s = Ok (matching s o (seqZ 1 (nextDonationId s - 1))) ∧
  getAllDonations s = seqZ 1 (nextDonationId s - 1) ∧
  ∀ i, i ∈ matching s o (seqZ 1 (nextDonationId s - 1)) ↔
       id (donations s !!! i) ≠ 0 ∧ ngo (donations s !!! i) = o.
Proof.
  intros Hs. apply reachable_inv in Hs.
  pose proof (inv_ids s Hs) as Hids. pose proof (inv_next s Hs) as Hnext.
  split; [| split].
  - unfold getDonationsByNGO.
    rewrite scan_correct by (by apply reachable_ids_length). simpl.
    by rewrite Hids.
  - exact Hids.
  - intros i. unfold matching. rewrite list_elem_of_filter, elem_of_seqZ.
    rewrite (inv_donation_id s Hs i). case_bool_decide; split; intros; lia || tauto.
Qed.

Lemma getDonationsByNGO_exact_witness :
  getDonationsByNGO Scenario.alpha Scenario.busy = Ok [1; 2; 3] ∧
  getDonationsByNGO Scenario.beta Scenario.busy = Ok [].
Proof.
  destruct (getDonationsByNGO_exact Scenario.busy Scenario.alpha busy_reachable)
    as (Ha & _).
  destruct (getDonationsByNGO_exact Scenario.busy Scenario.beta busy_reachable)
    as (Hb & _).
  split; [rewrite Ha | rewrite Hb]; reflexivity.
Defined.

(** C9, as stated, fails: with three donations in the system, all to
    another organisation, the query for an organisation that has none
    walks the whole list of donations twice to return the empty list. *)
Lemma getDonationsByNGO_not_index_served :
  reachable Scenario.busy ∧
  getDonationsByNGO_scan Scenario.beta Scenario.busy = Ok ([], 6%nat) ∧
  ¬ index_served Scenario.beta Scenario.busy.
Proof.
  split; [exact busy_reachable |]. split; [reflexivity |].
  intros (l & n & Hscan & Hle).
  assert (Hrun : getDonationsByNGO_scan Scenario.beta Scenario.busy = Ok ([], 6%nat))
    by reflexivity.
  rewrite Hrun in Hscan. injection Hscan as <- <-. simpl in Hle. lia.
Qed.

(** C9, amended. In every reachable state [getDonationsByNGO] computes its
    answer at query time from the list of all donation ids and the donation
    records, in two passes over that list: with [n] donations in the system
    it runs [2 * n] loop iterations, for every organisation. *)
Theorem getDonationsByNGO_double_scan (s : State) (o : address) :
  reachable s →
  getDonationsByNGO_scan o s
  = Ok (matching s o (donationIds s), (2 * length (donationIds s))%nat).
Proof.
  intros Hs. apply scan_correct. by apply reachable_ids_length, reachable_inv.
Qed.

Lemma getDonationsByNGO_double_scan_witness :
  getDonationsByNGO_scan Scenario.alpha Scenario.busy = Ok ([1; 2; 3], 6%nat).
Proof.
  rewrite (getDonationsByNGO_double_scan Scenario.busy Scenario.alpha busy_reachable).
  reflexivity.
Defined.

(** ** What a successful call tells *)

Lemma bytes_length_zero (x : string) : bytes_length x = 0 ↔ x = "".
Proof.
  unfold bytes_length. destruct x; simpl; split; intros H; try reflexivity;
    try discriminate; lia.
Qed.

Lemma registerNGO_Ok sender name metadataCID description website contact s s' log :
  registerNGO sender name metadataCID description website contact s = Ok (s', log) →
  exists_ (ngos s !!! sender) = false ∧ name ≠ "" ∧
  s' = push_ngoAddress sender
         (set_ngo sender
            (mkNGO sender name metadataCID false 0 0 description website contact true) s) ∧
  log = [NGORegistered sender name].
Proof.
  intros H. unfold registerNGO in H. peel H. injection H as <- <-.
  apply negb_true_iff in Hr. apply Z.ltb_lt in Hr0.
  repeat split; try assumption.
  intros Hname. apply bytes_length_zero in Hname. lia.
Qed.

Lemma approveNGO_Ok sender ngoWallet approved s s' log :
  approveNGO sender ngoWallet approved s = Ok (s', log) →
  sender = owner s ∧ exists_ (ngos s !!! ngoWallet) = true ∧
  s' = set_ngo ngoWallet (set_approved approved (ngos s !!! ngoWallet)) s ∧
  log = [NGOApproved ngoWallet approved].
Proof.
  intros H. unfold approveNGO in H. peel H. injection H as <- <-.
  apply bool_decide_eq_true in Hr. by repeat split.
Qed.

Lemma donate_Ok now sender value ngoWallet message s s' log :
  donate now sender value ngoWallet message (set_balance (balance s + value) s)
    = Ok (s', log) →
  exists_ (ngos s !!! ngoWallet) = true ∧ approved (ngos s !!! ngoWallet) = true ∧
  0 < value ∧ nextDonationId s + 1 ≤ MAX_UINT256 ∧
  totalReceived (ngos s !!! ngoWallet) + value ≤ MAX_UINT256 ∧
  uint_at (pendingWithdrawals s) ngoWallet + value ≤ MAX_UINT256 ∧
  s' = credited now sender value ngoWallet message s ∧
  log = [DonationMade (nextDonationId s) sender ngoWallet value message].
Proof.
  intros H. unfold donate in H. peel H. simpl in *. injection H as <- <-.
  apply Z.ltb_lt in Hr1. by repeat split.
Qed.

Lemma donate_fits now sender value ngoWallet message s :
  exists_ (ngos s !!! ngoWallet) = true → approved (ngos s !!! ngoWallet) = true →
  0 < value → nextDonationId s + 1 ≤ MAX_UINT256 →
  totalReceived (ngos s !!! ngoWallet) + value ≤ MAX_UINT256 →
  uint_at (pendingWithdrawals s) ngoWallet + value ≤ MAX_UINT256 →
  donate now sender value ngoWallet message (set_balance (balance s + value) s)
  = Ok (credited now sender value ngoWallet message s,
        [DonationMade (nextDonationId s) sender ngoWallet value message]).
Proof.
  intros Hex Happ Hv Hn Hr Hp. unfold donate, ngoExists. simpl.
  rewrite Hex, Happ. simpl.
  rewrite (require_true _ (0 <? value)) by (by apply Z.ltb_lt). simpl.
  rewrite checked_add_fits by assumption. simpl.
  rewrite checked_add_fits by assumption. simpl.
  rewrite checked_add_fits by assumption. reflexivity.
Qed.

Lemma addProof_Ok sender donationId cid s s' log :
  addProof sender donationId cid s = Ok (s', log) →
  exists_ (ngos s !!! sender) = true ∧ approved (ngos s !!! sender) = true ∧
  id (donations s !!! donationId) ≠ 0 ∧ ngo (donations s !!! donationId) = sender ∧
  proofCID (donations s !!! donationId) = "" ∧
  s' = set_donation donationId (set_proofCID cid (donations s !!! donationId)) s ∧
  log = [ProofAdded donationId cid].
Proof.
  intros H. unfold addProof in H. peel H. injection H as <- <-.
  apply andb_prop in Hr as [Hex Happ]. apply negb_true_iff, Z.eqb_neq in Hr0.
  apply bool_decide_eq_true in Hr1. apply Z.eqb_eq, bytes_length_zero in Hr2.
  by repeat split.
Qed.

Lemma withdraw_Ok call sender amount s s' log :
  withdraw call sender amount s = Ok (s', log) →
  exists_ (ngos s !!! sender) = true ∧ approved (ngos s !!! sender) = true ∧
  0 < amount ≤ uint_at (pendingWithdrawals s) sender ∧
  totalWithdrawn (ngos s !!! sender) + amount ≤ MAX_UINT256 ∧
  ∃ log0, call sender amount (debited sender amount s) = Some (s', log0) ∧
          log = log0 ++ [WithdrawalMade sender amount].
Proof.
  intros H. unfold withdraw in H. peel H. simpl in *.
  apply andb_prop in Hr as [Hex Happ]. apply Z.ltb_lt in Hr0.
  destruct (call sender amount _) as [[s2 log2] |] eqn:Hcall; [| discriminate].
  injection H as <- <-. repeat split; try assumption; try lia.
  exists log2. by split.
Qed.

Lemma transferOwnership_Ok sender newOwner s s' log :
  transferOwnership sender newOwner s = Ok (s', log) →
  sender = owner s ∧ newOwner ≠ 0%N ∧ s' = set_owner newOwner s ∧ log = [].
Proof.
  intros H. unfold transferOwnership in H. peel H. injection H as <- <-.
  apply bool_decide_eq_true in Hr. apply negb_true_iff, bool_decide_eq_false in Hr0.
  by repeat split.
Qed.

(** ** Induction over calls

    A predicate [I] on states and a relation [R] between the state before,
    the state after and the events emitted hold of every successful call,
    and of every run, once they hold of the functions of the contract. For
    [withdraw], [R] is asked of the debit and transfer followed by whatever
    the recipient did. *)
Section CallInduction.
Variable I : State → Prop.
Variable R : State → State → list Event → Prop.

Hypothesis R_refl : ∀ s, I s → R s s [].
Hypothesis R_trans : ∀ s1 s2 s3 l1 l2,
  R s1 s2 l1 → R s2 s3 l2 → R s1 s3 (l1 ++ l2).
Hypothesis H_registerNGO : ∀ sender name metadataCID description website contact s s' log,
  I s →
  registerNGO sender name metadataCID description website contact s = Ok (s', log) →
  I s' ∧ R s s' log.
Hypothesis H_approveNGO : ∀ sender ngoWallet approved s s' log,
  I s → approveNGO sender ngoWallet approved s = Ok (s', log) → I s' ∧ R s s' log.
Hypothesis H_donate : ∀ now sender value ngoWallet message s s' log,
  I s →
  donate now sender value ngoWallet message (set_balance (balance s + value) s)
    = Ok (s', log) →
  I s' ∧ R s s' log.
Hypothesis H_addProof : ∀ sender donationId cid s s' log,
  I s → addProof sender donationId cid s = Ok (s', log) → I s' ∧ R s s' log.
Hypothesis H_transferOwnership : ∀ sender newOwner s s' log,
  I s → transferOwnership sender newOwner s = Ok (s', log) → I s' ∧ R s s' log.
Hypothesis H_withdraw : ∀ sender amount s,
  I s →
  exists_ (ngos s !!! sender) = true → approved (ngos s !!! sender) = true →
  0 < amount ≤ uint_at (pendingWithdrawals s) sender →
  totalWithdrawn (ngos s !!! sender) + amount ≤ MAX_UINT256 →
  amount ≤ balance s →
  I (paid sender amount s) ∧
  ∀ s' log, I s' → R (paid sender amount s) s' log →
            R s s' (log ++ [WithdrawalMade sender amount]).

Lemma exec_receive_rel :
  (∀ c now sender value s s' log,
     I s → exec now sender value c s = Ok (s', log) → I s' ∧ R s s' log) ∧
  (∀ r now s s' log,
     I s → receive now r s = Some (s', log) → I s' ∧ R s s' log).
Proof.
  apply Call_Receiver_comb; simpl.
  - intros ????? now sender value s s' log HI H. peel H. eauto.
  - intros ?? now sender value s s' log HI H. peel H. eauto.
  - intros ?? now sender value s s' log HI H. eauto.
  - intros ?? now sender value s s' log HI H. peel H. eauto.
  - intros amount r IH now sender value s s' log HI H. peel H.
    apply withdraw_Ok in H as (Hex & Happ & Hamt & Hfit & log0 & Hcall & ->).
    unfold call_value in Hcall.
    destruct (Z.leb_spec amount (balance (debited sender amount s))) as [Hbal | Hbal];
      [| discriminate].
    destruct (H_withdraw sender amount s HI Hex Happ Hamt Hfit Hbal) as [HIp Hglue].
    destruct (IH now _ _ _ HIp Hcall) as [HI' HR']. split; [assumption |].
    by apply Hglue.
  - intros ? now sender value s s' log HI H. peel H. eauto.
  - intros now s s' log HI H. injection H as <- <-. split; [assumption | by apply R_refl].
  - discriminate.
  - intros sender value c IHc rest IHr now s s' log HI H.
    destruct (exec now sender value c s) as [[s1 log1] | |] eqn:Hc; [| by eauto ..].
    destruct (receive now rest s1) as [[s2 log2] |] eqn:Hrest; [| discriminate].
    injection H as <- <-.
    destruct (IHc _ _ _ _ _ _ HI Hc) as [HI1 HR1].
    destruct (IHr _ _ _ _ HI1 Hrest) as [HI2 HR2]. split; [assumption |].
    by eapply R_trans.
Qed.

Lemma transact_rel tx s s' log :
  I s → transact tx s = Ok (s', log) → I s' ∧ R s s' log.
Proof. intros HI H. by eapply (proj1 exec_receive_rel). Qed.

Hypothesis H_forced : ∀ s v, I s → I (force_funds v s) ∧ R s (force_funds v s) [].

Lemma run_rel (steps : list Step) : ∀ s,
  I s → I (run s steps).1 ∧ R s (run s steps).1 (run s steps).2.
Proof.
  induction steps as [| [tx | v] rest IH]; intros s HI; simpl.
  - split; [assumption | by apply R_refl].
  - destruct (transact tx s) as [[s1 log1] | |] eqn:Htx; [| by apply IH ..].
    destruct (transact_rel _ _ _ _ HI Htx) as [HI1 HR1].
    destruct (IH s1 HI1) as [HI2 HR2]. destruct (run s1 rest) as [s2 log2]. simpl in *.
    split; [assumption | by eapply R_trans].
  - destruct (H_forced s v HI) as [HI1 HR1].
    destruct (IH (force_funds v s) HI1) as [HI2 HR2]. split; [assumption |].
    change ((run (force_funds v s) rest).2) with ([] ++ (run (force_funds v s) rest).2).
    by eapply R_trans.
Qed.
End CallInduction.

(** ** What no call undoes *)

Lemma frozen_refl (d : Donation) : frozen d d.
Proof. by repeat split. Qed.

Lemma frozen_trans (d1 d2 d3 : Donation) : frozen d1 d2 → frozen d2 d3 → frozen d1 d3.
Proof.
  intros (? & ? & ? & ? & ? & ? & Hp1) (? & ? & ? & ? & ? & ? & Hp2).
  repeat split; try congruence.
  intros Hset. rewrite <- (Hp1 Hset). apply Hp2. by rewrite (Hp1 Hset).
Qed.

Lemma same_profile_refl (n : NGO) : exists_ n = true → same_profile n n.
Proof. intros He. repeat split; try assumption; lia. Qed.

Lemma same_profile_trans (n1 n2 n3 : NGO) :
  same_profile n1 n2 → same_profile n2 n3 → same_profile n1 n3.
Proof.
  intros (? & ? & ? & ? & ? & ? & ? & ? & ?) (? & ? & ? & ? & ? & ? & ? & ? & ?).
  repeat split; try congruence; lia.
Qed.

Lemma evolves_refl (s : State) : evolves s s.
Proof.
  split.
  - lia.
  - intros i _. apply frozen_refl.
  - intros a. apply same_profile_refl.
  - reflexivity.
  - reflexivity.
  - auto.
Qed.

Lemma evolves_trans (s1 s2 s3 : State) : evolves s1 s2 → evolves s2 s3 → evolves s1 s3.
Proof.
  intros [Hn1 Hd1 Hg1 Ha1 Hi1 Ho1] [Hn2 Hd2 Hg2 Ha2 Hi2 Ho2]. split.
  - lia.
  - intros i Hi. eapply frozen_trans; [by apply Hd1 | apply Hd2; lia].
  - intros a Ha. pose proof (Hg1 a Ha) as H12.
    eapply same_profile_trans; [exact H12 | apply Hg2]. apply H12.
  - by etrans.
  - by etrans.
  - auto.
Qed.

Lemma registerNGO_evolves sender name metadataCID description website contact s s' log :
  registerNGO sender name metadataCID description website contact s = Ok (s', log) →
  evolves s s'.
Proof.
  intros H. apply registerNGO_Ok in H as (Hex & _ & -> & _).
  split; simpl.
  - lia.
  - intros i _. apply frozen_refl.
  - intros a Ha. rewrite ngo_at_insert.
    destruct (decide (sender = a)) as [<- | Hne]; [congruence | by apply same_profile_refl].
  - by apply prefix_app_r.
  - reflexivity.
  - auto.
Qed.

Lemma approveNGO_evolves sender ngoWallet approved s s' log :
  approveNGO sender ngoWallet approved s = Ok (s', log) → evolves s s'.
Proof.
  intros H. apply approveNGO_Ok in H as (_ & Hex & -> & _).
  split; simpl.
  - lia.
  - intros i _. apply frozen_refl.
  - intros a Ha. rewrite ngo_at_insert.
    destruct (decide (ngoWallet = a)) as [<- | Hne]; [| by apply same_profile_refl].
    repeat split; simpl; try assumption; lia.
  - reflexivity.
  - reflexivity.
  - auto.
Qed.

Lemma donate_evolves now sender value ngoWallet message s s' log :
  donate now sender value ngoWallet message (set_balance (balance s + value) s)
    = Ok (s', log) →
  evolves s s'.
Proof.
  intros H. apply donate_Ok in H as (Hex & Happ & Hv & _ & _ & _ & -> & _).
  split; simpl.
  - lia.
  - intros i Hi. rewrite donation_at_insert.
    destruct (decide (nextDonationId s = i)); [lia | apply frozen_refl].
  - intros a Ha. rewrite ngo_at_insert.
    destruct (decide (ngoWallet = a)) as [<- | Hne]; [| by apply same_profile_refl].
    repeat split; simpl; try assumption; lia.
  - reflexivity.
  - by apply prefix_app_r.
  - auto.
Qed.

Lemma addProof_evolves sender donationId cid s s' log :
  addProof sender donationId cid s = Ok (s', log) → evolves s s'.
Proof.
  intros H. apply addProof_Ok in H as (_ & _ & _ & _ & Hempty & -> & _).
  split; simpl.
  - lia.
  - intros i _. rewrite donation_at_insert.
    destruct (decide (donationId = i)) as [<- | Hne]; [| apply frozen_refl].
    by repeat split.
  - intros a. apply same_profile_refl.
  - reflexivity.
  - reflexivity.
  - auto.
Qed.

Lemma transferOwnership_evolves sender newOwner s s' log :
  transferOwnership sender newOwner s = Ok (s', log) → evolves s s'.
Proof.
  intros H. apply transferOwnership_Ok in H as (_ & Hnz & -> & _).
  split; simpl.
  - lia.
  - intros i _. apply frozen_refl.
  - intros a. apply same_profile_refl.
  - reflexivity.
  - reflexivity.
  - auto.
Qed.

Lemma paid_evolves sender amount s :
  exists_ (ngos s !!! sender) = true → 0 < amount → evolves s (paid sender amount s).
Proof.
  intros Hex Hamt. split; simpl.
  - lia.
  - intros i _. apply frozen_refl.
  - intros a Ha. rewrite ngo_at_insert.
    destruct (decide (sender = a)) as [<- | Hne]; [| by apply same_profile_refl].
    repeat split; simpl; try assumption; lia.
  - reflexivity.
  - reflexivity.
  - auto.
Qed.

Lemma force_funds_evolves (s : State) (v : N) : evolves s (force_funds v s).
Proof.
  split; simpl.
  - lia.
  - intros i _. apply frozen_refl.
  - intros a. apply same_profile_refl.
  - reflexivity.
  - reflexivity.
  - auto.
Qed.

Lemma run_evolves (s : State) (steps : list Step) : evolves s (run s steps).1.
Proof.
  refine (proj2 (run_rel (fun _ => True) (fun s s' _ => evolves s s')
                   _ _ _ _ _ _ _ _ _ steps s Logic.I)).
  - intros. apply evolves_refl.
  - intros. by eapply evolves_trans.
  - intros. split; [done | by eapply registerNGO_evolves].
  - intros. split; [done | by eapply approveNGO_evolves].
  - intros. split; [done | by eapply donate_evolves].
  - intros. split; [done | by eapply addProof_evolves].
  - intros. split; [done | by eapply transferOwnership_evolves].
  - intros sender amount t _ Hex _ [Hpos _] _ _. split; [done |].
    intros s' log _ Hp. eapply evolves_trans; [by apply paid_evolves | exact Hp].
  - intros. split; [done | apply force_funds_evolves].
Qed.

(** ** Records, donations and the event log *)

Lemma matching_ext (s s' : State) (o : address) (l : list Z) :
  (∀ i, i ∈ l → ngo (donations s' !!! i) = ngo (donations s !!! i)) →
  matching s' o l = matching s o l.
Proof.
  induction l as [| i l IH]; intros Hl; [reflexivity |].
  assert (Hi : ngo (donations s' !!! i) = ngo (donations s !!! i)) by (apply Hl; by left).
  assert (IH' : matching s' o l = matching s o l) by (apply IH; intros; apply Hl; by right).
  unfold matching in *. rewrite !filter_cons. rewrite Hi, IH'. reflexivity.
Qed.

Lemma matching_app (s : State) (o : address) (l k : list Z) :
  matching s o (l ++ k) = matching s o l ++ matching s o k.
Proof. apply filter_app. Qed.

Lemma matching_none (s : State) (o : address) (l : list Z) :
  (∀ i, i ∈ l → ngo (donations s !!! i) ≠ o) → matching s o l = [].
Proof.
  induction l as [| i l IH]; intros Hl; [reflexivity |].
  unfold matching in *. rewrite filter_cons_False by (apply Hl; by left).
  apply IH. intros; apply Hl; by right.
Qed.

Lemma matching_elem (s : State) (o : address) (l : list Z) (i : Z) :
  i ∈ matching s o l ↔ ngo (donations s !!! i) = o ∧ i ∈ l.
Proof. unfold matching. by rewrite list_elem_of_filter. Qed.

Lemma donation_total_ext (s s' : State) (l : list Z) :
  (∀ i, i ∈ l → amount (donations s' !!! i) = amount (donations s !!! i)) →
  donation_total s' l = donation_total s l.
Proof.
  induction l as [| i l IH]; intros Hl; simpl; [reflexivity |].
  fold (donation_total s' l) (donation_total s l).
  rewrite IH by (intros; apply Hl; by right). rewrite Hl by (by left). reflexivity.
Qed.

Lemma donation_total_app (s : State) (l k : list Z) :
  donation_total s (l ++ k) = donation_total s l + donation_total s k.
Proof.
  induction l as [| i l IH]; simpl; [reflexivity |].
  fold (donation_total s (l ++ k)) (donation_total s l). lia.
Qed.

Lemma donated_to_app (a : address) (l k : list Event) :
  donated_to a (l ++ k) = donated_to a l + donated_to a k.
Proof.
  induction l as [| e l IH]; simpl; [reflexivity |].
  fold (donated_to a (l ++ k)) (donated_to a l). lia.
Qed.

Lemma withdrawn_by_app (a : address) (l k : list Event) :
  withdrawn_by a (l ++ k) = withdrawn_by a l + withdrawn_by a k.
Proof.
  induction l as [| e l IH]; simpl; [reflexivity |].
  fold (withdrawn_by a (l ++ k)) (withdrawn_by a l). lia.
Qed.

Lemma net_flow_app (l k : list Event) : net_flow (l ++ k) = net_flow l + net_flow k.
Proof.
  induction l as [| e l IH]; simpl; [reflexivity |].
  fold (net_flow (l ++ k)) (net_flow l). lia.
Qed.

Lemma accounts_for_refl (s : State) : accounts_for s s [].
Proof. repeat split; intros; simpl; lia. Qed.

Lemma accounts_for_trans (s1 s2 s3 : State) (l1 l2 : list Event) :
  accounts_for s1 s2 l1 → accounts_for s2 s3 l2 → accounts_for s1 s3 (l1 ++ l2).
Proof.
  intros (Hr1 & Hw1 & Hb1) (Hr2 & Hw2 & Hb2). repeat split.
  - intros a. rewrite Hr2, Hr1, donated_to_app. lia.
  - intros a. rewrite Hw2, Hw1, withdrawn_by_app. lia.
  - rewrite Hb2, Hb1, net_flow_app. lia.
Qed.

(** The ids on record are those below the counter. *)
Lemma donationIds_range (s : State) (i : Z) :
  Inv s → i ∈ donationIds s ↔ 1 ≤ i < nextDonationId s.
Proof. intros HI. rewrite (inv_ids s HI), elem_of_seqZ. lia. Qed.

(** An address without a record has received and withdrawn nothing. *)
Lemma unregistered_clean (s : State) (a : address) :
  Inv s → Inv_records s → exists_ (ngos s !!! a) = false →
  matching s a (donationIds s) = [] ∧
  totalReceived (ngos s !!! a) = 0 ∧ totalWithdrawn (ngos s !!! a) = 0.
Proof.
  intros HI HR Hex.
  assert (Hnone : matching s a (donationIds s) = []).
  { apply matching_none. intros i Hi Heq. apply (donationIds_range s i HI) in Hi.
    destruct (rec_donation s HR i Hi) as [_ Hreg]. congruence. }
  pose proof (rec_received s HR a) as Hrec. rewrite Hnone in Hrec. simpl in Hrec.
  destruct (inv_accounts s HI a) as (? & ? & ? & ?). repeat split; [assumption | lia ..].
Qed.

Lemma constructor_records (deployer : address) : Inv_records (constructor deployer).
Proof.
  split; simpl.
  - intros a. rewrite lookup_total_empty. discriminate.
  - intros i Hi. lia.
  - intros o. by rewrite lookup_total_empty.
Qed.

Lemma registerNGO_records sender name metadataCID description website contact s s' log :
  Inv s → Inv_records s →
  registerNGO sender name metadataCID description website contact s = Ok (s', log) →
  Inv_records s' ∧ accounts_for s s' log.
Proof.
  intros HI HR H. apply registerNGO_Ok in H as (Hex & Hname & -> & ->).
  destruct (unregistered_clean s sender HI HR Hex) as (Hnone & Hrec0 & Hwd0).
  split; [split |]; simpl.
  - intros a. rewrite ngo_at_insert.
    destruct (decide (sender = a)) as [<- | Hne]; simpl; [done | apply (rec_ngo s HR)].
  - intros i Hi. destruct (rec_donation s HR i Hi) as [Hpos Hreg].
    split; [assumption |]. rewrite ngo_at_insert. by destruct (decide _).
  - intros o. rewrite ngo_at_insert.
    change (matching (push_ngoAddress _ _) o (donationIds s))
      with (matching s o (donationIds s)).
    change (donation_total (push_ngoAddress _ _)) with (donation_total s).
    destruct (decide (sender = o)) as [<- | Hne]; simpl.
    + by rewrite Hnone.
    + apply (rec_received s HR).
  - repeat split; simpl; intros; rewrite ?ngo_at_insert;
      try destruct (decide (sender = a)) as [<- | Hne]; simpl; lia.
Qed.

Lemma approveNGO_records sender ngoWallet approved s s' log :
  Inv_records s →
  approveNGO sender ngoWallet approved s = Ok (s', log) →
  Inv_records s' ∧ accounts_for s s' log.
Proof.
  intros HR H. apply approveNGO_Ok in H as (_ & Hex & -> & ->).
  split; [split |]; simpl.
  - intros a. rewrite ngo_at_insert.
    destruct (decide (ngoWallet = a)) as [<- | Hne]; simpl; apply (rec_ngo s HR).
  - intros i Hi. destruct (rec_donation s HR i Hi) as [Hpos Hreg].
    split; [assumption |]. rewrite ngo_at_insert. by destruct (decide _).
  - intros o. rewrite ngo_at_insert.
    change (matching (set_ngo _ _ s) o (donationIds s)) with (matching s o (donationIds s)).
    change (donation_total (set_ngo _ _ s)) with (donation_total s).
    destruct (decide (ngoWallet = o)) as [<- | Hne]; simpl; apply (rec_received s HR).
  - repeat split; simpl; intros; rewrite ?ngo_at_insert;
      try destruct (decide (ngoWallet = a)) as [<- | Hne]; simpl; lia.
Qed.

Lemma donate_records now sender value ngoWallet message s s' log :
  Inv s → Inv_records s →
  donate now sender value ngoWallet message (set_balance (balance s + value) s)
    = Ok (s', log) →
  Inv_records s' ∧ accounts_for s s' log.
Proof.
  intros HI HR H. apply donate_Ok in H as (Hex & Happ & Hv & _ & _ & _ & -> & ->).
  assert (Hold : ∀ i, i ∈ donationIds s →
            donations (credited now sender value ngoWallet message s) !!! i
            = donations s !!! i).
  { intros i Hi. apply (donationIds_range s i HI) in Hi. simpl.
    rewrite donation_at_insert. destruct (decide _); [lia | reflexivity]. }
  split; [split |].
  - intros a. simpl. rewrite ngo_at_insert.
    destruct (decide (ngoWallet = a)) as [<- | Hne]; simpl; apply (rec_ngo s HR).
  - intros i Hi. simpl in *. rewrite donation_at_insert, ngo_at_insert.
    destruct (decide (nextDonationId s = i)) as [<- | Hne]; simpl.
    + rewrite decide_True by reflexivity. by split.
    + destruct (rec_donation s HR i) as [Hpos Hreg]; [lia |].
      split; [assumption |]. by destruct (decide _).
  - intros o.
    change (donationIds (credited now sender value ngoWallet message s))
      with (donationIds s ++ [nextDonationId s]).
    rewrite matching_app, donation_total_app.
    rewrite (matching_ext s) by (intros i Hi; by rewrite Hold).
    rewrite (donation_total_ext s).
    2:{ intros i Hi. apply matching_elem in Hi as [_ Hi]. by rewrite Hold. }
    rewrite <- (rec_received s HR o).
    unfold matching. simpl. rewrite ngo_at_insert.
    destruct (decide (ngoWallet = o)) as [<- | Hne].
    + rewrite filter_cons_True by (by rewrite lookup_total_insert_eq).
      unfold donation_total. simpl. rewrite lookup_total_insert_eq. simpl. lia.
    + rewrite filter_cons_False by (by rewrite lookup_total_insert_eq).
      simpl. lia.
  - repeat split; simpl; intros; rewrite ?ngo_at_insert;
      try case_bool_decide; try destruct (decide (ngoWallet = a)); simpl;
      subst; congruence || lia.
Qed.

Lemma addProof_records sender donationId cid s s' log :
  Inv_records s →
  addProof sender donationId cid s = Ok (s', log) →
  Inv_records s' ∧ accounts_for s s' log.
Proof.
  intros HR H. apply addProof_Ok in H as (_ & _ & _ & _ & _ & -> & ->).
  assert (Hsame : ∀ i,
            ngo (donations (set_donation donationId
                              (set_proofCID cid (donations s !!! donationId)) s) !!! i)
              = ngo (donations s !!! i) ∧
            amount (donations (set_donation donationId
                                 (set_proofCID cid (donations s !!! donationId)) s) !!! i)
              = amount (donations s !!! i)).
  { intros i. simpl. rewrite donation_at_insert.
    by destruct (decide (donationId = i)) as [<- | Hne]. }
  split; [split |].
  - intros a. exact (rec_ngo s HR a).
  - intros i Hi. destruct (Hsame i) as [-> ->]. exact (rec_donation s HR i Hi).
  - intros o. rewrite (matching_ext s) by (intros; apply Hsame).
    rewrite (donation_total_ext s) by (intros; apply Hsame).
    exact (rec_received s HR o).
  - repeat split; simpl; intros; lia.
Qed.

Lemma transferOwnership_records sender newOwner s s' log :
  Inv_records s →
  transferOwnership sender newOwner s = Ok (s', log) →
  Inv_records s' ∧ accounts_for s s' log.
Proof.
  intros HR H. apply transferOwnership_Ok in H as (_ & _ & -> & ->).
  split; [by destruct HR | repeat split; simpl; intros; lia].
Qed.

Lemma paid_inv sender amount s :
  Inv s →
  exists_ (ngos s !!! sender) = true → approved (ngos s !!! sender) = true →
  0 < amount ≤ uint_at (pendingWithdrawals s) sender →
  amount ≤ balance s →
  Inv (paid sender amount s).
Proof.
  intros HI Hex Happ Hamt Hbal.
  apply (withdraw_inv (fun t => Some (t, [])) sender amount s (paid sender amount s)
           ([] ++ [WithdrawalMade sender amount])).
  - intros s1 s2 log' HI1 Heq. by injection Heq as <- _.
  - assumption.
  - rewrite withdraw_debits by assumption. unfold call_value.
    change (balance (debited sender amount s)) with (balance s).
    destruct (Z.leb_spec amount (balance s)); [reflexivity | lia].
Qed.

Lemma paid_records sender amount s :
  Inv_records s →
  Inv_records (paid sender amount s) ∧
  ∀ s' log, accounts_for (paid sender amount s) s' log →
            accounts_for s s' (log ++ [WithdrawalMade sender amount]).
Proof.
  intros HR. split; [split |].
  - intros a. simpl. rewrite ngo_at_insert.
    destruct (decide (sender = a)) as [<- | Hne]; simpl; apply (rec_ngo s HR).
  - intros i Hi. destruct (rec_donation s HR i Hi) as [Hpos Hreg].
    split; [assumption |]. simpl. rewrite ngo_at_insert.
    destruct (decide _) as [-> |]; simpl; assumption.
  - intros o.
    change (matching (paid sender amount s) o (donationIds (paid sender amount s)))
      with (matching s o (donationIds s)).
    change (donation_total (paid sender amount s)) with (donation_total s).
    simpl. rewrite ngo_at_insert.
    destruct (decide (sender = o)) as [<- | Hne]; simpl; apply (rec_received s HR).
  - intros s' log (Hr & Hw & Hb). repeat split.
    + intros a. rewrite Hr, donated_to_app. simpl. rewrite ngo_at_insert.
      destruct (decide (sender = a)) as [<- | Hne]; simpl; lia.
    + intros a. rewrite Hw, withdrawn_by_app. simpl. rewrite ngo_at_insert.
      case_bool_decide; destruct (decide (sender = a)); simpl; subst; congruence || lia.
    + rewrite Hb, net_flow_app. simpl. lia.
Qed.

(** Every successful transaction keeps the invariants, and its events
    account for what it did to the accumulators and the balance. *)
Lemma transact_accounts (tx : Tx) (s s' : State) (log : list Event) :
  Inv s → Inv_records s →
  transact tx s = Ok (s', log) →
  (Inv s' ∧ Inv_records s') ∧ accounts_for s s' log.
Proof.
  intros HI HR.
  refine (transact_rel (fun t => Inv t ∧ Inv_records t) accounts_for
            _ _ _ _ _ _ _ _ tx s s' log (conj HI HR)).
  - intros. apply accounts_for_refl.
  - intros. by eapply accounts_for_trans.
  - intros sender nm cid0 descr web cont t t' l [HIt HRt] H.
    destruct (registerNGO_records _ _ _ _ _ _ _ _ _ HIt HRt H).
    eauto using registerNGO_inv.
  - intros sender w b t t' l [HIt HRt] H.
    destruct (approveNGO_records _ _ _ _ _ _ HRt H).
    eauto using approveNGO_inv.
  - intros now sender value w msg t t' l [HIt HRt] H.
    destruct (donate_records _ _ _ _ _ _ _ _ HIt HRt H).
    eauto using donate_inv.
  - intros sender i cid0 t t' l [HIt HRt] H.
    destruct (addProof_records _ _ _ _ _ _ HRt H).
    eauto using addProof_inv.
  - intros sender newOwner t t' l [HIt HRt] H.
    destruct (transferOwnership_records _ _ _ _ _ HRt H).
    eauto using transferOwnership_inv.
  - intros sender amount t [HIt HRt] Hex Happ Hamt _ Hbal.
    destruct (paid_records sender amount t HRt) as [HRp Hglue].
    split; [split; [by apply paid_inv | assumption] |].
    intros t' l _ Hacc. by apply Hglue.
Qed.

Lemma force_funds_records (s : State) (v : N) : Inv_records s → Inv_records (force_funds v s).
Proof. intros [Hn Hd Hr]. by split. Qed.

(** Along every history the invariants hold, the event log accounts for
    the accumulators, and the balance moved by what the log says plus the
    funds credited without a call. *)
Lemma run_accounts (steps : list Step) : ∀ s,
  Inv s → Inv_records s →
  (Inv (run s steps).1 ∧ Inv_records (run s steps).1) ∧
  (∀ a, totalReceived (ngos (run s steps).1 !!! a)
        = totalReceived (ngos s !!! a) + donated_to a (run s steps).2) ∧
  (∀ a, totalWithdrawn (ngos (run s steps).1 !!! a)
        = totalWithdrawn (ngos s !!! a) + withdrawn_by a (run s steps).2) ∧
  balance (run s steps).1 = balance s + net_flow (run s steps).2 + forced_total steps.
Proof.
  induction steps as [| [tx | v] rest IH]; intros s HI HR; simpl.
  - split; [by split |]. repeat split; intros; lia.
  - destruct (transact tx s) as [[s1 log1] | |] eqn:Htx; [| by apply IH ..].
    destruct (transact_accounts _ _ _ _ HI HR Htx) as [[HI1 HR1] (Hr1 & Hw1 & Hb1)].
    destruct (IH s1 HI1 HR1) as (Hinv & Hr2 & Hw2 & Hb2).
    destruct (run s1 rest) as [s2 log2]. simpl in *.
    split; [assumption |]. repeat split.
    + intros a. rewrite Hr2, Hr1, donated_to_app. lia.
    + intros a. rewrite Hw2, Hw1, withdrawn_by_app. lia.
    + rewrite Hb2, Hb1, net_flow_app. lia.
  - destruct (IH (force_funds v s) (force_funds_inv s v HI) (force_funds_records s v HR))
      as (Hinv & Hr2 & Hw2 & Hb2).
    split; [assumption |]. repeat split; try assumption.
    rewrite Hb2. simpl. fold (forced_total rest). lia.
Qed.

Lemma reachable_records (s : State) : reachable s → Inv_records s.
Proof.
  induction 1 as [deployer | s tx Hs IH | s v Hs IH].
  - apply constructor_records.
  - unfold apply_tx. destruct (transact tx s) as [[s1 log1] | |] eqn:Htx;
      [| assumption | assumption].
    by destruct (transact_accounts _ _ _ _ (reachable_inv s Hs) IH Htx) as [[_ HR] _].
  - by apply force_funds_records.
Qed.

(** ** Lookups *)

Lemma getDonation_Ok (i : Z) (s : State) (d : Donation) :
  getDonation i s = Ok d ↔ d = donations s !!! i ∧ id (donations s !!! i) ≠ 0.
Proof.
  unfold getDonation. destruct (Z.eqb_spec (id (donations s !!! i)) 0) as [He | Hne]; simpl.
  - split; [discriminate | intros [_ ?]; contradiction].
  - split; [intros H; by injection H as <- | intros [-> _]; reflexivity].
Qed.

Lemma getDonation_missing (i : Z) (s : State) :
  id (donations s !!! i) = 0 → getDonation i s = Revert "Donation does not exist".
Proof. intros H. unfold getDonation. by rewrite H. Qed.

Lemma getNGO_Ok (a : address) (s : State) (n : NGO) :
  getNGO a s = Ok n ↔ n = ngos s !!! a ∧ exists_ (ngos s !!! a) = true.
Proof.
  unfold getNGO, ngoExists. destruct (exists_ (ngos s !!! a)); simpl.
  - split; [intros H; by injection H as <- | intros [-> _]; reflexivity].
  - split; [discriminate | intros [_ ?]; discriminate].
Qed.

Lemma donation_exists_iff (s : State) (i : Z) :
  Inv s → id (donations s !!! i) ≠ 0 ↔ 1 ≤ i < nextDonationId s.
Proof. intros HI. rewrite (inv_donation_id s HI i). case_bool_decide; lia. Qed.

Lemma getDonationsByNGO_matching (s : State) (o : address) :
  Inv s → getDonationsByNGO o s = Ok (matching s o (donationIds s)).
Proof.
  intros HI. unfold getDonationsByNGO.
  by rewrite scan_correct by (by apply reachable_ids_length).
Qed.

(** ** Properties of whole runs *)

(** X1. A donation on record stays on record under its id through every
    later history, with the same donor, organisation,
    amount, timestamp and message; only its proof can change, and only
    while it is empty. *)
Theorem donation_record_permanent (s : State) (steps : list Step) (i : Z) (d : Donation) :
  reachable s →
  getDonation i s = Ok d →
  ∃ d', getDonation i (run s steps).1 = Ok d' ∧ frozen d d'.
Proof.
  intros Hs Hget. apply reachable_inv in Hs.
  apply getDonation_Ok in Hget as [-> Hid].
  pose proof (proj1 (donation_exists_iff s i Hs) Hid) as Hrange.
  pose proof (ev_donations _ _ (run_evolves s steps) i Hrange) as Hfr.
  exists (donations (run s steps).1 !!! i). split; [| exact Hfr].
  apply getDonation_Ok. split; [reflexivity |].
  destruct Hfr as (-> & _). exact Hid.
Qed.

Lemma donation_record_permanent_witness :
  ∃ d', getDonation 1 (run Scenario.funded
                         [Transaction (mkTx 103 Scenario.alpha 0 (AddProof 1 "cidXYZ")); ForcedFunds 7;
                          Transaction (mkTx 104 Scenario.alpha 0 (Withdraw 40 Accept))]).1 = Ok d' ∧
        amount d' = 100.
Proof.
  destruct (donation_record_permanent Scenario.funded
              [Transaction (mkTx 103 Scenario.alpha 0 (AddProof 1 "cidXYZ")); ForcedFunds 7;
               Transaction (mkTx 104 Scenario.alpha 0 (Withdraw 40 Accept))]
              1 (mkDonation 1 Scenario.donor1 Scenario.alpha 100 102 "hi" ""))
    as (d' & Hget & Hfr).
  - exact funded_reachable.
  - reflexivity.
  - exists d'. split; [exact Hget |]. destruct Hfr as (_ & _ & _ & Ha & _). exact Ha.
Defined.

(** X2. A registered organisation stays registered through every later
    history, under the same wallet, name, metadata,
    description, website and contact, and its [totalReceived] and
    [totalWithdrawn] never decrease. *)
Theorem organisation_record_permanent (s : State) (steps : list Step) (a : address) (n : NGO) :
  getNGO a s = Ok n →
  ∃ n', getNGO a (run s steps).1 = Ok n' ∧ same_profile n n'.
Proof.
  intros Hget. apply getNGO_Ok in Hget as [-> Hex].
  pose proof (ev_ngos _ _ (run_evolves s steps) a Hex) as Hp.
  exists (ngos (run s steps).1 !!! a). split; [| exact Hp].
  apply getNGO_Ok. split; [reflexivity | apply Hp].
Qed.

Lemma organisation_record_permanent_witness :
  ∃ n', getNGO Scenario.alpha
          (run Scenario.registered
             [Transaction (mkTx 101 Scenario.alpha 0 (RegisterNGO "Other" "" "" "" ""));
              Transaction (mkTx 102 Scenario.admin 0 (ApproveNGO Scenario.alpha true))]).1 = Ok n' ∧
        name n' = "Alpha Relief".
Proof.
  destruct (organisation_record_permanent Scenario.registered
              [Transaction (mkTx 101 Scenario.alpha 0 (RegisterNGO "Other" "" "" "" ""));
               Transaction (mkTx 102 Scenario.admin 0 (ApproveNGO Scenario.alpha true))]
              Scenario.alpha
              (mkNGO Scenario.alpha "Alpha Relief" "" false 0 0 "desc" "" "" true))
    as (n' & Hget & Hp).
  - reflexivity.
  - exists n'. split; [exact Hget |]. destruct Hp as (_ & Hn & _). exact Hn.
Defined.

(** X3. The two listings only grow at the end: what [getAllNGOs] and
    [getAllDonations] return now is a prefix of what they return after any
    history. *)
Theorem listings_append_only (s : State) (steps : list Step) :
  getAllNGOs s `prefix_of` getAllNGOs (run s steps).1 ∧
  getAllDonations s `prefix_of` getAllDonations (run s steps).1.
Proof.
  split; [apply (ev_ngoAddresses _ _ (run_evolves s steps))
         | apply (ev_donationIds _ _ (run_evolves s steps))].
Qed.

(** X4. A contract deployed from an account other than the zero address
    never has the zero address as its owner. *)
Theorem owner_never_zero (deployer : address) (steps : list Step) :
  deployer ≠ 0%N → owner (run (constructor deployer) steps).1 ≠ 0%N.
Proof.
  intros Hd. by apply (ev_owner _ _ (run_evolves (constructor deployer) steps)).
Qed.

Lemma owner_never_zero_witness :
  owner (run (constructor Scenario.admin)
           [Transaction (mkTx 100 Scenario.admin 0 (TransferOwnership 0%N));
            Transaction (mkTx 101 Scenario.admin 0 (TransferOwnership Scenario.donor1))]).1 ≠ 0%N.
Proof. apply (owner_never_zero Scenario.admin). discriminate. Defined.

Lemma forced_total_nonneg (steps : list Step) : 0 ≤ forced_total steps.
Proof.
  induction steps as [| [tx | v] rest IH]; simpl; [lia | assumption |].
  fold (forced_total rest). lia.
Qed.

(** X5. The event log of a history since deployment accounts for the
    ledger: for every organisation [totalReceived] is the sum of its
    [DonationMade] amounts, [totalWithdrawn] the sum of its
    [WithdrawalMade] amounts, and its pending balance the difference of the
    two. The balance of the contract is the donations less the withdrawals
    plus the funds credited to it without a call, hence never less than the
    donations less the withdrawals. *)
Theorem event_log_accounts (deployer : address) (steps : list Step) (a : address) :
  let s := (run (constructor deployer) steps).1 in
  let log := (run (constructor deployer) steps).2 in
  totalReceived (ngos s !!! a) = donated_to a log ∧
  totalWithdrawn (ngos s !!! a) = withdrawn_by a log ∧
  getPendingWithdrawal a s = donated_to a log - withdrawn_by a log ∧
  getContractBalance s = net_flow log + forced_total steps ∧
  net_flow log ≤ getContractBalance s.
Proof.
  intros s log.
  destruct (run_accounts steps (constructor deployer)
              (constructor_inv deployer) (constructor_records deployer))
    as [[HI _] (Hr & Hw & Hb)].
  fold s log in HI, Hr, Hw, Hb.
  specialize (Hr a). specialize (Hw a). simpl in Hr, Hw, Hb.
  rewrite lookup_total_empty in Hr, Hw. simpl in Hr, Hw.
  destruct (inv_accounts s HI a) as (_ & _ & Hsum & _).
  pose proof (forced_total_nonneg steps).
  unfold getPendingWithdrawal, getContractBalance. repeat split; lia.
Qed.

(** X6. Whatever a transaction does, including a withdrawal whose
    recipient calls back into the contract, an organisation's pending
    balance afterwards is what it was plus what the events say it was
    donated less what they say it withdrew; so no organisation is ever paid
    more than its pending balance and the donations made to it meanwhile. *)
Theorem withdrawals_bounded (s s' : State) (tx : Tx) (log : list Event) (a : address) :
  reachable s →
  transact tx s = Ok (s', log) →
  getPendingWithdrawal a s'
    = getPendingWithdrawal a s + donated_to a log - withdrawn_by a log ∧
  withdrawn_by a log ≤ getPendingWithdrawal a s + donated_to a log.
Proof.
  intros Hs Htx.
  pose proof (reachable_inv s Hs) as HI. pose proof (reachable_records s Hs) as HR.
  destruct (transact_accounts tx s s' log HI HR Htx) as [[HI' _] (Hr & Hw & _)].
  specialize (Hr a). specialize (Hw a).
  destruct (inv_accounts s HI a) as (_ & _ & Hsum & _).
  destruct (inv_accounts s' HI' a) as (_ & Hp' & Hsum' & _).
  unfold getPendingWithdrawal. lia.
Qed.

Lemma withdrawals_bounded_witness :
  withdrawn_by Scenario.alpha
    [WithdrawalMade Scenario.alpha 60; WithdrawalMade Scenario.alpha 40] ≤ 100 + 0.
Proof.
  apply (withdrawals_bounded Scenario.funded
           (apply_tx Scenario.funded
              (mkTx 103 Scenario.alpha 0
                 (Withdraw 40 (Reenter Scenario.alpha 0 (Withdraw 100 Accept)
                                 (Reenter Scenario.alpha 0 (Withdraw 60 Accept) Accept)))))
           (mkTx 103 Scenario.alpha 0
              (Withdraw 40 (Reenter Scenario.alpha 0 (Withdraw 100 Accept)
                              (Reenter Scenario.alpha 0 (Withdraw 60 Accept) Accept))))
           [WithdrawalMade Scenario.alpha 60; WithdrawalMade Scenario.alpha 40]
           Scenario.alpha).
  - exact funded_reachable.
  - reflexivity.
Defined.

(** X7. In every reachable state what an organisation has received,
    [totalReceived], is the sum of the amounts of the donations that
    [getDonationsByNGO] returns for it. *)
Theorem received_is_sum_of_donations (s : State) (o : address) :
  reachable s →
  ∃ ids, getDonationsByNGO o s = Ok ids ∧
         totalReceived (ngos s !!! o) = donation_total s ids.
Proof.
  intros Hs. exists (matching s o (donationIds s)). split.
  - by apply getDonationsByNGO_matching, reachable_inv.
  - apply (rec_received s (reachable_records s Hs)).
Qed.

Lemma received_is_sum_of_donations_witness :
  ∃ ids, getDonationsByNGO Scenario.alpha Scenario.busy = Ok ids ∧
         donation_total Scenario.busy ids = 112.
Proof.
  destruct (received_is_sum_of_donations Scenario.busy Scenario.alpha busy_reachable)
    as (ids & Hget & Hsum).
  exists ids. split; [exact Hget |]. rewrite <- Hsum. reflexivity.
Defined.

(** X8. In every reachable state a donation that [getDonation] returns
    carries the id it was asked for, has a positive amount, and names an
    organisation that [getNGO] finds under that very wallet. *)
Theorem donation_well_formed (s : State) (i : Z) (d : Donation) :
  reachable s →
  getDonation i s = Ok d →
  id d = i ∧ 0 < amount d ∧ ∃ n, getNGO (ngo d) s = Ok n ∧ wallet n = ngo d.
Proof.
  intros Hs Hget.
  pose proof (reachable_inv s Hs) as HI. pose proof (reachable_records s Hs) as HR.
  apply getDonation_Ok in Hget as [-> Hid].
  pose proof (proj1 (donation_exists_iff s i HI) Hid) as Hrange.
  destruct (rec_donation s HR i Hrange) as [Hpos Hreg].
  split; [| split; [assumption |]].
  - rewrite (inv_donation_id s HI i). by rewrite bool_decide_eq_true_2.
  - exists (ngos s !!! ngo (donations s !!! i)). split.
    + by apply getNGO_Ok.
    + by apply (rec_ngo s HR).
Qed.

Lemma donation_well_formed_witness :
  ∃ n, getNGO Scenario.alpha Scenario.funded = Ok n ∧ wallet n = Scenario.alpha.
Proof.
  destruct (donation_well_formed Scenario.funded 1
              (mkDonation 1 Scenario.donor1 Scenario.alpha 100 102 "hi" ""))
    as (_ & _ & Hn).
  - exact funded_reachable.
  - reflexivity.
  - exact Hn.
Defined.

(** X9. In every reachable state [getDonation] succeeds on exactly the ids
    that [getAllDonations] lists, which are 1 up to the counter; on every
    other id, 0 included, it fails with "Donation does not exist". *)
Theorem getDonation_listed (s : State) (i : Z) :
  reachable s →
  (i ∈ getAllDonations s ↔ 1 ≤ i < nextDonationId s) ∧
  (i ∈ getAllDonations s → ∃ d, getDonation i s = Ok d) ∧
  (i ∉ getAllDonations s → getDonation i s = Revert "Donation does not exist").
Proof.
  intros Hs. apply reachable_inv in Hs.
  pose proof (donationIds_range s i Hs) as Hrange.
  pose proof (donation_exists_iff s i Hs) as Hid.
  unfold getAllDonations. split; [exact Hrange | split].
  - intros Hin. exists (donations s !!! i). apply getDonation_Ok.
    split; [reflexivity | tauto].
  - intros Hnot. apply getDonation_missing.
    destruct (Z.eq_dec (id (donations s !!! i)) 0); [assumption | tauto].
Qed.

Lemma getDonation_listed_witness :
  getDonation 0 Scenario.funded = Revert "Donation does not exist" ∧
  getDonation 2 Scenario.funded = Revert "Donation does not exist".
Proof.
  destruct (getDonation_listed Scenario.funded 0 funded_reachable) as (_ & _ & H0).
  destruct (getDonation_listed Scenario.funded 2 funded_reachable) as (_ & _ & H2).
  split; [apply H0 | apply H2]; vm_compute; intros Hin;
    repeat (apply elem_of_cons in Hin as [Hin | Hin]; [discriminate |]);
    by apply elem_of_nil in Hin.
Defined.

(** X10. In every reachable state [getAllNGOs] lists each registered
    organisation once; [getNGO] succeeds on exactly the listed addresses,
    returning a record filed under that address and with a name that is not
    empty, and fails with "NGO does not exist" on every other address. *)
Theorem getNGO_listed (s : State) (a : address) :
  reachable s →
  NoDup (getAllNGOs s) ∧
  (a ∈ getAllNGOs s → ∃ n, getNGO a s = Ok n ∧ wallet n = a ∧ name n ≠ "") ∧
  (a ∉ getAllNGOs s → getNGO a s = Revert "NGO does not exist").
Proof.
  intros Hs.
  pose proof (reachable_inv s Hs) as HI. pose proof (reachable_records s Hs) as HR.
  unfold getAllNGOs. split; [apply (inv_nodup s HI) | split].
  - intros Hin. apply (inv_registered s HI) in Hin.
    exists (ngos s !!! a). split; [by apply getNGO_Ok | by apply (rec_ngo s HR)].
  - intros Hnot. unfold getNGO, ngoExists.
    destruct (exists_ (ngos s !!! a)) eqn:He; [| reflexivity].
    exfalso. apply Hnot. by apply (inv_registered s HI).
Qed.

Lemma getNGO_listed_witness :
  getNGO Scenario.beta Scenario.funded = Revert "NGO does not exist".
Proof.
  destruct (getNGO_listed Scenario.funded Scenario.beta funded_reachable) as (_ & _ & H).
  apply H. vm_compute. intros Hin.
  repeat (apply elem_of_cons in Hin as [Hin | Hin]; [discriminate |]).
  by apply elem_of_nil in Hin.
Defined.

(** X11. A caller without a record that registers under a name that is not
    empty succeeds: [getNGO] then returns the record it asked for,
    unapproved and with both accumulators at zero, the caller is appended
    to [getAllNGOs], and the record of every other address is unchanged.
    With an empty name the call fails with "Name cannot be empty". *)
Theorem register_then_get (s : State) (now : Z) (sender : address)
    (name metadataCID description website contact : string) :
  exists_ (ngos s !!! sender) = false →
  let tx := mkTx now sender 0 (RegisterNGO name metadataCID description website contact) in
  (name ≠ "" →
   ∃ s', transact tx s = Ok (s', [NGORegistered sender name]) ∧
         getNGO sender s'
           = Ok (mkNGO sender name metadataCID false 0 0 description website contact true) ∧
         getAllNGOs s' = getAllNGOs s ++ [sender] ∧
         ∀ a, a ≠ sender → ngos s' !!! a = ngos s !!! a) ∧
  (name = "" → transact tx s = Revert "Name cannot be empty").
Proof.
  intros Hex tx. unfold transact, tx. simpl. unfold registerNGO. rewrite Hex. simpl.
  split.
  - intros Hname.
    assert (Hlen : (0 <? bytes_length name) = true).
    { apply Z.ltb_lt.
      destruct (Z.eq_dec (bytes_length name) 0) as [Hz | Hnz].
      - by apply bytes_length_zero in Hz.
      - unfold bytes_length in *. lia. }
    rewrite Hlen. simpl. eexists. split; [reflexivity |]. split; [| split].
    + apply getNGO_Ok. simpl. by rewrite lookup_total_insert_eq.
    + reflexivity.
    + intros a Ha. simpl. by rewrite lookup_total_insert_ne.
  - intros ->. reflexivity.
Qed.

Lemma register_then_get_witness :
  ∃ s', transact (mkTx 105 Scenario.beta 0 (RegisterNGO "Beta Aid" "cid" "d" "w" "c"))
                 Scenario.funded = Ok (s', [NGORegistered Scenario.beta "Beta Aid"]) ∧
        getAllNGOs s' = [Scenario.alpha; Scenario.beta].
Proof.
  destruct (register_then_get Scenario.funded 105 Scenario.beta "Beta Aid" "cid" "d" "w" "c")
    as [Hok _].
  - reflexivity.
  - destruct Hok as (s' & Htx & _ & Hall & _); [discriminate |].
    exists s'. split; [exact Htx | rewrite Hall; reflexivity].
Defined.

(** ** Properties of single calls *)

Lemma credited_matching now sender value ngoWallet message s (o : address) :
  Inv s →
  matching (credited now sender value ngoWallet message s) o
           (donationIds s ++ [nextDonationId s])
  = matching s o (donationIds s)
    ++ (if decide (ngoWallet = o) then [nextDonationId s] else []).
Proof.
  intros HI. rewrite matching_app. f_equal.
  - apply matching_ext. intros i Hi. apply (donationIds_range s i HI) in Hi. simpl.
    rewrite donation_at_insert. destruct (decide _); [lia | reflexivity].
  - unfold matching. simpl. destruct (decide (ngoWallet = o)) as [<- | Hne].
    + by rewrite filter_cons_True by (by rewrite lookup_total_insert_eq).
    + by rewrite filter_cons_False by (by rewrite lookup_total_insert_eq).
Qed.

(** X12. A successful donation in a reachable state takes the current
    counter as its id; [getDonation] on that id then returns the donor, the
    organisation, the amount, the timestamp of the block and the message of
    the call, with an empty proof; the id is appended to [getAllDonations]
    and to the answer of [getDonationsByNGO] for the organisation and for no
    other; and [totalReceived], the pending balance of the organisation and
    the balance of the contract each grow by the amount. *)
Theorem donate_then_get (s s' : State) (now : Z) (sender : address) (value : Z)
    (ngoWallet : address) (message : string) (log : list Event) :
  reachable s →
  transact (mkTx now sender value (Donate ngoWallet message)) s = Ok (s', log) →
  let i := nextDonationId s in
  log = [DonationMade i sender ngoWallet value message] ∧
  getDonation i s' = Ok (mkDonation i sender ngoWallet value now message "") ∧
  getAllDonations s' = getAllDonations s ++ [i] ∧
  (∃ ids, getDonationsByNGO ngoWallet s = Ok ids ∧
          getDonationsByNGO ngoWallet s' = Ok (ids ++ [i])) ∧
  (∀ o, o ≠ ngoWallet → getDonationsByNGO o s' = getDonationsByNGO o s) ∧
  totalReceived (ngos s' !!! ngoWallet) = totalReceived (ngos s !!! ngoWallet) + value ∧
  getPendingWithdrawal ngoWallet s' = getPendingWithdrawal ngoWallet s + value ∧
  getContractBalance s' = getContractBalance s + value.
Proof.
  intros Hs Htx i. apply reachable_inv in Hs. unfold transact in Htx. simpl in Htx.
  pose proof (donate_inv _ _ _ _ _ _ _ _ Hs Htx) as HI'.
  apply donate_Ok in Htx as (Hex & Happ & Hv & _ & _ & _ & -> & ->).
  pose proof (inv_next s Hs) as Hnext.
  split; [reflexivity |]. split; [| split; [reflexivity |]; split; [| split]].
  - apply getDonation_Ok. simpl. rewrite lookup_total_insert_eq. simpl.
    split; [reflexivity | lia].
  - exists (matching s ngoWallet (donationIds s)).
    split; [by apply getDonationsByNGO_matching |].
    rewrite getDonationsByNGO_matching by assumption.
    change (donationIds (credited now sender value ngoWallet message s))
      with (donationIds s ++ [nextDonationId s]).
    rewrite credited_matching by assumption. by rewrite decide_True.
  - intros o Ho. rewrite !getDonationsByNGO_matching by assumption.
    change (donationIds (credited now sender value ngoWallet message s))
      with (donationIds s ++ [nextDonationId s]).
    rewrite credited_matching by assumption.
    rewrite decide_False by congruence. by rewrite app_nil_r.
  - unfold getPendingWithdrawal, getContractBalance. simpl.
    rewrite lookup_total_insert_eq, uint_at_insert, decide_True by reflexivity.
    simpl. by repeat split.
Qed.

Lemma donate_then_get_witness :
  getDonation 1 Scenario.funded
  = Ok (mkDonation 1 Scenario.donor1 Scenario.alpha 100 102 "hi" "").
Proof.
  apply (donate_then_get Scenario.vetted Scenario.funded 102 Scenario.donor1 100
           Scenario.alpha "hi" [DonationMade 1 Scenario.donor1 Scenario.alpha 100 "hi"]).
  - exact vetted_reachable.
  - reflexivity.
Defined.

(** X13. In a reachable state a donation succeeds exactly when the
    organisation is registered and approved, the amount is positive, and
    neither the counter nor [totalReceived] would pass the largest
    [uint256]. *)
Theorem donate_succeeds_iff (s : State) (now : Z) (sender : address) (value : Z)
    (ngoWallet : address) (message : string) :
  reachable s →
  (∃ s' log, transact (mkTx now sender value (Donate ngoWallet message)) s = Ok (s', log)) ↔
  exists_ (ngos s !!! ngoWallet) = true ∧ approved (ngos s !!! ngoWallet) = true ∧
  0 < value ∧ nextDonationId s < MAX_UINT256 ∧
  totalReceived (ngos s !!! ngoWallet) + value ≤ MAX_UINT256.
Proof.
  intros Hs. apply reachable_inv in Hs. unfold transact. simpl. split.
  - intros (s' & log & H). apply donate_Ok in H as (? & ? & ? & ? & ? & _).
    repeat split; try assumption; lia.
  - intros (Hex & Happ & Hv & Hn & Hr).
    destruct (inv_accounts s Hs ngoWallet) as (Hw & Hp & Hsum & _).
    do 2 eexists. apply donate_fits; try assumption; lia.
Qed.

Lemma donate_succeeds_iff_witness :
  ∃ s' log, transact (mkTx 103 Scenario.donor1 5 (Donate Scenario.alpha "")) Scenario.funded
            = Ok (s', log).
Proof.
  apply (donate_succeeds_iff Scenario.funded 103 Scenario.donor1 5 Scenario.alpha "").
  - exact funded_reachable.
  - vm_compute. repeat split; discriminate.
Defined.

(** X14. In a reachable state an approved organisation that withdraws an
    amount within its pending balance, and accepts the funds, is paid: the
    call succeeds, its pending balance and the balance of the contract fall
    by the amount, its [totalWithdrawn] grows by it, and no other
    organisation's record or pending balance changes. *)
Theorem withdraw_pays_out (s : State) (now : Z) (sender : address) (amount : Z) :
  reachable s →
  exists_ (ngos s !!! sender) = true →
  approved (ngos s !!! sender) = true →
  0 < amount ≤ getPendingWithdrawal sender s →
  ∃ s', transact (mkTx now sender 0 (Withdraw amount Accept)) s
          = Ok (s', [WithdrawalMade sender amount]) ∧
        getPendingWithdrawal sender s' = getPendingWithdrawal sender s - amount ∧
        totalWithdrawn (ngos s' !!! sender) = totalWithdrawn (ngos s !!! sender) + amount ∧
        totalReceived (ngos s' !!! sender) = totalReceived (ngos s !!! sender) ∧
        getContractBalance s' = getContractBalance s - amount ∧
        ∀ o, o ≠ sender →
             ngos s' !!! o = ngos s !!! o ∧
             getPendingWithdrawal o s' = getPendingWithdrawal o s.
Proof.
  intros Hs Hex Happ Hamt.
  eexists. split; [by apply withdraw_accepted |].
  unfold getPendingWithdrawal, getContractBalance. simpl.
  rewrite lookup_total_insert_eq, uint_at_insert, decide_True by reflexivity. simpl.
  repeat split; try reflexivity.
  - by rewrite lookup_total_insert_ne.
  - by rewrite uint_at_insert, decide_False.
Qed.

Lemma withdraw_pays_out_witness :
  ∃ s', transact (mkTx 103 Scenario.alpha 0 (Withdraw 40 Accept)) Scenario.funded
          = Ok (s', [WithdrawalMade Scenario.alpha 40]) ∧
        getPendingWithdrawal Scenario.alpha s' = 60.
Proof.
  destruct (withdraw_pays_out Scenario.funded 103 Scenario.alpha 40)
    as (s' & Htx & Hp & _).
  - exact funded_reachable.
  - reflexivity.
  - reflexivity.
  - vm_compute. split; [reflexivity | discriminate].
  - exists s'. split; [exact Htx | rewrite Hp; reflexivity].
Defined.

(** X15. [withdraw] refuses, in this order: a caller that is not a
    registered and approved organisation, with "NGO not approved"; an
    amount that is not positive, with "Amount must be greater than 0"; an
    amount above the pending balance of the caller, with "Insufficient
    balance". It refuses before the recipient runs, whatever the recipient
    would do. *)
Theorem withdraw_rejects (s : State) (now : Z) (sender : address) (amount : Z)
    (recipient : Receiver) :
  let tx := mkTx now sender 0 (Withdraw amount recipient) in
  (exists_ (ngos s !!! sender) && approved (ngos s !!! sender) = false →
   transact tx s = Revert "NGO not approved") ∧
  (exists_ (ngos s !!! sender) && approved (ngos s !!! sender) = true →
   amount ≤ 0 →
   transact tx s = Revert "Amount must be greater than 0") ∧
  (exists_ (ngos s !!! sender) && approved (ngos s !!! sender) = true →
   0 < amount → getPendingWithdrawal sender s < amount →
   transact tx s = Revert "Insufficient balance").
Proof.
  intros tx. unfold transact, tx, getPendingWithdrawal. simpl.
  unfold withdraw, onlyApprovedNGO. repeat split.
  - intros ->. reflexivity.
  - intros -> Hle. simpl.
    by rewrite (require_false _ (0 <? amount)) by (apply Z.ltb_ge; lia).
  - intros -> Hpos Hgt. simpl.
    rewrite (require_true _ (0 <? amount)) by (by apply Z.ltb_lt). simpl.
    by rewrite (require_false _ (amount <=? _)) by (apply Z.leb_gt; lia).
Qed.

Lemma withdraw_rejects_witness :
  transact (mkTx 103 Scenario.alpha 0 (Withdraw 101 Accept)) Scenario.funded
  = Revert "Insufficient balance".
Proof.
  destruct (withdraw_rejects Scenario.funded 103 Scenario.alpha 101 Accept) as (_ & _ & H).
  apply H; reflexivity.
Defined.

(** X16. Once the owner has withdrawn the approval of an organisation, it
    can be given nothing, can withdraw nothing and can add no proof: every
    donation to it fails with "NGO is not approved", and every [withdraw]
    and [addProof] it sends with "NGO not approved". Its pending balance is
    untouched by the revocation. *)
Theorem revoked_org_locked (s s' : State) (sender ngoWallet : address) (log : list Event) :
  approveNGO sender ngoWallet false s = Ok (s', log) →
  getPendingWithdrawal ngoWallet s' = getPendingWithdrawal ngoWallet s ∧
  (∀ now donor value message,
     exec now donor value (Donate ngoWallet message) s' = Revert "NGO is not approved") ∧
  (∀ now amount recipient,
     exec now ngoWallet 0 (Withdraw amount recipient) s' = Revert "NGO not approved") ∧
  (∀ now donationId cid,
     exec now ngoWallet 0 (AddProof donationId cid) s' = Revert "NGO not approved").
Proof.
  intros H. apply approveNGO_Ok in H as (_ & Hex & -> & _).
  split; [reflexivity |]. repeat split; intros; simpl.
  - unfold donate, ngoExists. simpl. rewrite lookup_total_insert_eq. simpl.
    by rewrite Hex.
  - unfold withdraw, onlyApprovedNGO. simpl. rewrite lookup_total_insert_eq. simpl.
    by rewrite andb_false_r.
  - unfold addProof, onlyApprovedNGO. simpl. rewrite lookup_total_insert_eq. simpl.
    by rewrite andb_false_r.
Qed.

Lemma revoked_org_locked_witness :
  exec 104 Scenario.alpha 0 (Withdraw 40 Accept)
       (apply_tx Scenario.funded (mkTx 103 Scenario.admin 0 (ApproveNGO Scenario.alpha false)))
  = Revert "NGO not approved".
Proof.
  destruct (revoked_org_locked Scenario.funded
              (apply_tx Scenario.funded
                 (mkTx 103 Scenario.admin 0 (ApproveNGO Scenario.alpha false)))
              Scenario.admin Scenario.alpha [NGOApproved Scenario.alpha false])
    as (_ & _ & Hw & _).
  - reflexivity.
  - apply Hw.
Defined.

(** X17. A successful [transferOwnership] was sent by the owner and names
    a new owner other than the zero address; it changes the owner and
    nothing else. From then on the former owner, if it is not the new one,
    is refused by [approveNGO] with "Only owner can call this function",
    and the new owner can set the approval of every registered
    organisation. *)
Theorem ownership_handover (s s' : State) (sender newOwner : address) (log : list Event) :
  transferOwnership sender newOwner s = Ok (s', log) →
  sender = owner s ∧ newOwner ≠ 0%N ∧ log = [] ∧
  s' = set_owner newOwner s ∧ owner s' = newOwner ∧
  (sender ≠ newOwner →
   ∀ ngoWallet flag,
     approveNGO sender ngoWallet flag s'
     = Revert "Only owner can call this function") ∧
  (∀ ngoWallet flag,
     exists_ (ngos s !!! ngoWallet) = true →
     ∃ s'', approveNGO newOwner ngoWallet flag s'
            = Ok (s'', [NGOApproved ngoWallet flag]) ∧
            approved (ngos s'' !!! ngoWallet) = flag).
Proof.
  intros H. apply transferOwnership_Ok in H as (Hown & Hnz & -> & ->).
  repeat split; try assumption.
  - intros Hne ngoWallet b. unfold approveNGO, onlyOwner. simpl.
    by rewrite bool_decide_eq_false_2.
  - intros ngoWallet b Hex. unfold approveNGO, onlyOwner, ngoExists. simpl.
    rewrite bool_decide_eq_true_2 by reflexivity. simpl. rewrite Hex. simpl.
    eexists. split; [reflexivity |]. simpl. by rewrite lookup_total_insert_eq.
Qed.

Lemma ownership_handover_witness :
  approveNGO Scenario.admin Scenario.alpha true
    (set_owner Scenario.donor1 Scenario.registered)
  = Revert "Only owner can call this function".
Proof.
  destruct (ownership_handover Scenario.registered
              (set_owner Scenario.donor1 Scenario.registered)
              Scenario.admin Scenario.donor1 [])
    as (_ & _ & _ & _ & _ & Hold & _).
  - reflexivity.
  - apply Hold. discriminate.
Defined.

(** X18. Setting the approval of an organisation to the value it was just
    set to succeeds again and leaves the state exactly as it is. *)
Theorem approveNGO_idempotent (s s1 : State) (sender ngoWallet : address) (flag : bool)
    (log : list Event) :
  approveNGO sender ngoWallet flag s = Ok (s1, log) →
  approveNGO sender ngoWallet flag s1 = Ok (s1, log).
Proof.
  intros H. apply approveNGO_Ok in H as (Hown & Hex & -> & ->).
  unfold approveNGO, onlyOwner, ngoExists. simpl.
  rewrite bool_decide_eq_true_2 by assumption. simpl.
  rewrite lookup_total_insert_eq. simpl. rewrite Hex. simpl.
  do 2 f_equal. unfold set_ngo. simpl. f_equal.
  by rewrite insert_insert_eq.
Qed.

Lemma approveNGO_idempotent_witness :
  approveNGO Scenario.admin Scenario.alpha true Scenario.vetted
  = Ok (Scenario.vetted, [NGOApproved Scenario.alpha true]).
Proof.
  apply (approveNGO_idempotent Scenario.registered Scenario.vetted). reflexivity.
Defined.

(** X19. A proof that is not empty is final: after a successful [addProof]
    with such a reference in a reachable state, and through every later
    history, [getDonation] returns the donation with that
    very proof, and every [addProof] on the donation, from anyone and with
    any reference, fails. *)
Theorem proof_is_final (s s1 : State) (sender : address) (donationId : Z) (cid : string)
    (log : list Event) (steps : list Step) :
  reachable s →
  cid ≠ "" →
  addProof sender donationId cid s = Ok (s1, log) →
  (∃ d, getDonation donationId (run s1 steps).1 = Ok d ∧ proofCID d = cid) ∧
  ∀ sender' cid', ∃ reason,
    addProof sender' donationId cid' (run s1 steps).1 = Revert reason.
Proof.
  intros Hs Hcid H. apply reachable_inv in Hs.
  apply addProof_Ok in H as (_ & _ & Hid & _ & _ & -> & _).
  pose proof (proj1 (donation_exists_iff s donationId Hs) Hid) as Hrange.
  set (s1 := set_donation donationId (set_proofCID cid (donations s !!! donationId)) s).
  assert (Hfr : frozen (donations s1 !!! donationId)
                       (donations (run s1 steps).1 !!! donationId)).
  { apply (ev_donations _ _ (run_evolves s1 steps)). exact Hrange. }
  assert (Hnow : donations s1 !!! donationId
                 = set_proofCID cid (donations s !!! donationId)).
  { unfold s1. simpl. by rewrite lookup_total_insert_eq. }
  destruct Hfr as (Hid' & _ & _ & _ & _ & _ & Hproof).
  rewrite Hnow in Hid', Hproof. simpl in Hid', Hproof.
  specialize (Hproof Hcid). split.
  - exists (donations (run s1 steps).1 !!! donationId). split; [| exact Hproof].
    apply getDonation_Ok. split; [reflexivity | congruence].
  - intros sender' cid'. apply addProof_write_once. congruence.
Qed.

Lemma proof_is_final_witness :
  ∃ reason,
    addProof Scenario.alpha 1 "other"
      (run (apply_tx Scenario.funded (mkTx 103 Scenario.alpha 0 (AddProof 1 "cidXYZ")))
           [Transaction (mkTx 104 Scenario.admin 0 (ApproveNGO Scenario.alpha false));
            Transaction (mkTx 105 Scenario.admin 0 (ApproveNGO Scenario.alpha true))]).1
    = Revert reason.
Proof.
  destruct (proof_is_final Scenario.funded
              (apply_tx Scenario.funded (mkTx 103 Scenario.alpha 0 (AddProof 1 "cidXYZ")))
              Scenario.alpha 1 "cidXYZ" [ProofAdded 1 "cidXYZ"]
              [Transaction (mkTx 104 Scenario.admin 0 (ApproveNGO Scenario.alpha false));
               Transaction (mkTx 105 Scenario.admin 0 (ApproveNGO Scenario.alpha true))])
    as [_ Hfinal].
  - exact funded_reachable.
  - discriminate.
  - reflexivity.
  - apply Hfinal.
Defined.

(** X20. [addProof] succeeds exactly when the caller is a registered and
    approved organisation, the donation exists, the caller is the
    organisation it was given to, and it has no proof yet. It then stores
    the reference in that donation and changes nothing else: [getDonation]
    returns the same record with the new proof. *)
Theorem addProof_then_get (s : State) (sender : address) (donationId : Z) (cid : string) :
  ((∃ s' log, addProof sender donationId cid s = Ok (s', log)) ↔
   exists_ (ngos s !!! sender) = true ∧ approved (ngos s !!! sender) = true ∧
   (∃ d, getDonation donationId s = Ok d ∧ ngo d = sender ∧ proofCID d = "")) ∧
  (∀ s' log d,
     addProof sender donationId cid s = Ok (s', log) →
     getDonation donationId s = Ok d →
     log = [ProofAdded donationId cid] ∧
     getDonation donationId s' = Ok (set_proofCID cid d) ∧
     (∀ j, j ≠ donationId → donations s' !!! j = donations s !!! j) ∧
     ngos s' = ngos s ∧ pendingWithdrawals s' = pendingWithdrawals s ∧
     balance s' = balance s ∧ owner s' = owner s).
Proof.
  split; [split |].
  - intros (s' & log & H). apply addProof_Ok in H as (? & ? & Hid & ? & ? & _).
    repeat split; try assumption.
    exists (donations s !!! donationId). repeat split; try assumption.
    by apply getDonation_Ok.
  - intros (Hex & Happ & d & Hget & Hngo & Hproof).
    apply getDonation_Ok in Hget as [-> Hid].
    unfold addProof, onlyApprovedNGO. rewrite Hex, Happ. simpl.
    rewrite (require_true _ (negb _)) by (by apply negb_true_iff, Z.eqb_neq). simpl.
    rewrite bool_decide_eq_true_2 by assumption. simpl.
    rewrite Hproof. simpl. by eauto.
  - intros s' log d H Hget. apply getDonation_Ok in Hget as [-> Hid].
    apply addProof_Ok in H as (_ & _ & _ & _ & _ & -> & ->).
    repeat split; try reflexivity.
    + apply getDonation_Ok. simpl. rewrite lookup_total_insert_eq.
      split; [reflexivity | exact Hid].
    + intros j Hj. simpl. by rewrite lookup_total_insert_ne.
Qed.

Lemma addProof_then_get_witness :
  ∃ s' log, addProof Scenario.alpha 1 "cidXYZ" Scenario.funded = Ok (s', log).
Proof.
  apply (addProof_then_get Scenario.funded Scenario.alpha 1 "cidXYZ").
  repeat split.
  exists (mkDonation 1 Scenario.donor1 Scenario.alpha 100 102 "hi" "").
  repeat split.
Defined.

(** X21. [approveNGO] succeeds exactly when the caller is the owner and
    the organisation is registered. It then sets the approval flag of that
    organisation and touches nothing else: not its profile or
    accumulators, not another record, no pending balance, no donation,
    not the balance of the contract. *)
Theorem approveNGO_touches_only_flag (s : State) (sender ngoWallet : address) (flag : bool) :
  ((∃ s' log, approveNGO sender ngoWallet flag s = Ok (s', log)) ↔
   sender = owner s ∧ exists_ (ngos s !!! ngoWallet) = true) ∧
  (∀ s' log,
     approveNGO sender ngoWallet flag s = Ok (s', log) →
     log = [NGOApproved ngoWallet flag] ∧
     ngos s' !!! ngoWallet = set_approved flag (ngos s !!! ngoWallet) ∧
     (∀ a, a ≠ ngoWallet → ngos s' !!! a = ngos s !!! a) ∧
     pendingWithdrawals s' = pendingWithdrawals s ∧ donations s' = donations s ∧
     balance s' = balance s ∧ owner s' = owner s ∧
     ngoAddresses s' = ngoAddresses s ∧ donationIds s' = donationIds s).
Proof.
  split; [split |].
  - intros (s' & log & H). by apply approveNGO_Ok in H as (? & ? & _).
  - intros [-> Hex]. unfold approveNGO, onlyOwner, ngoExists.
    rewrite bool_decide_eq_true_2 by reflexivity. simpl. rewrite Hex. simpl. by eauto.
  - intros s' log H. apply approveNGO_Ok in H as (_ & _ & -> & ->).
    repeat split; try reflexivity.
    + simpl. by rewrite lookup_total_insert_eq.
    + intros a Ha. simpl. by rewrite lookup_total_insert_ne.
Qed.

Lemma approveNGO_touches_only_flag_witness :
  ∃ s' log, approveNGO Scenario.admin Scenario.alpha true Scenario.registered = Ok (s', log).
Proof.
  apply (approveNGO_touches_only_flag Scenario.registered Scenario.admin Scenario.alpha true).
  split; reflexivity.
Defined.

(** X22. In a reachable state a withdrawal by an approved organisation of
    an amount within its pending balance always reaches the recipient, and
    the recipient runs on the state in which the amount is already debited
    and gone from the contract, a state that satisfies the ledger
    invariant; the call then succeeds or fails with the recipient. *)
Theorem recipient_sees_debited_ledger (s : State) (now : Z) (sender : address)
    (amount : Z) (recipient : Receiver) :
  reachable s →
  exists_ (ngos s !!! sender) = true →
  approved (ngos s !!! sender) = true →
  0 < amount ≤ getPendingWithdrawal sender s →
  transact (mkTx now sender 0 (Withdraw amount recipient)) s
  = match receive now recipient (paid sender amount s) with
    | Some (s', log) => Ok (s', log ++ [WithdrawalMade sender amount])
    | None => Revert "Withdrawal failed"
    end ∧
  Inv (paid sender amount s) ∧
  getPendingWithdrawal sender (paid sender amount s)
    = getPendingWithdrawal sender s - amount ∧
  getContractBalance (paid sender amount s) = getContractBalance s - amount.
Proof.
  intros Hs Hex Happ Hamt. apply reachable_inv in Hs.
  pose proof (balance_covers_pending s sender Hs) as Hbal.
  assert (Hle : amount ≤ balance s) by lia.
  split; [| split; [| split]].
  - unfold transact. simpl. rewrite withdraw_debits by assumption. cbv beta.
    unfold call_value. change (balance (debited sender amount s)) with (balance s).
    destruct (Z.leb_spec amount (balance s)); [reflexivity | lia].
  - by apply paid_inv.
  - unfold getPendingWithdrawal. simpl. by rewrite uint_at_insert, decide_True.
  - reflexivity.
Qed.

Lemma recipient_sees_debited_ledger_witness :
  getPendingWithdrawal Scenario.alpha (paid Scenario.alpha 40 Scenario.funded) = 100 - 40.
Proof.
  destruct (recipient_sees_debited_ledger Scenario.funded 103 Scenario.alpha 40 Fail)
    as (_ & _ & Hp & _).
  - exact funded_reachable.
  - reflexivity.
  - reflexivity.
  - vm_compute. split; [reflexivity | discriminate].
  - exact Hp.
Defined.

(** X23. The contract is solvent: in every reachable state the balance it
    holds is not negative and covers the pending balance of every
    organisation. *)
Theorem contract_is_solvent (s : State) (a : address) :
  reachable s →
  0 ≤ getPendingWithdrawal a s ≤ getContractBalance s.
Proof.
  intros Hs. apply reachable_inv in Hs.
  destruct (inv_accounts s Hs a) as (_ & Hp & _).
  pose proof (balance_covers_pending s a Hs). unfold getContractBalance.
  unfold getPendingWithdrawal in *. lia.
Qed.

Lemma contract_is_solvent_witness :
  0 ≤ getPendingWithdrawal Scenario.alpha Scenario.busy
    ≤ getContractBalance Scenario.busy.
Proof. apply (contract_is_solvent Scenario.busy Scenario.alpha busy_reachable). Defined.

(** ** Funds held and pending balances *)

Lemma registerNGO_surplus sender name metadataCID description website contact s s' log :
  Inv s →
  registerNGO sender name metadataCID description website contact s = Ok (s', log) →
  surplus s' = surplus s.
Proof.
  intros HI H. apply registerNGO_Ok in H as (Hex & _ & -> & _).
  unfold surplus, total_pending. simpl. rewrite sum_pending_app. simpl.
  rewrite (inv_unregistered s HI sender Hex). lia.
Qed.

Lemma donate_surplus now sender value ngoWallet message s s' log :
  Inv s →
  donate now sender value ngoWallet message (set_balance (balance s + value) s)
    = Ok (s', log) →
  surplus s' = surplus s.
Proof.
  intros HI H. apply donate_Ok in H as (Hex & _ & _ & _ & _ & _ & -> & _).
  unfold surplus, total_pending. simpl.
  rewrite sum_pending_insert;
    [lia | apply (inv_nodup s HI) | by apply (inv_registered s HI)].
Qed.

Lemma paid_surplus sender amount s :
  Inv s → exists_ (ngos s !!! sender) = true → surplus (paid sender amount s) = surplus s.
Proof.
  intros HI Hex. unfold surplus, total_pending. simpl.
  rewrite sum_pending_insert;
    [lia | apply (inv_nodup s HI) | by apply (inv_registered s HI)].
Qed.

(** No transaction changes what the contract holds beyond the pending
    balances. *)
Lemma transact_surplus (tx : Tx) (s s' : State) (log : list Event) :
  Inv s → transact tx s = Ok (s', log) → Inv s' ∧ surplus s' = surplus s.
Proof.
  intros HI.
  refine (transact_rel Inv (fun t t' _ => surplus t' = surplus t)
            _ _ _ _ _ _ _ _ tx s s' log HI).
  - reflexivity.
  - intros t1 t2 t3 _ _ H12 H23. congruence.
  - intros sender nm cid0 descr web cont t t' l HIt H.
    eauto using registerNGO_inv, registerNGO_surplus.
  - intros sender w b t t' l HIt H. split; [by eapply approveNGO_inv |].
    by apply approveNGO_Ok in H as (_ & _ & -> & _).
  - intros now sender value w msg t t' l HIt H.
    eauto using donate_inv, donate_surplus.
  - intros sender i cid0 t t' l HIt H. split; [by eapply addProof_inv |].
    by apply addProof_Ok in H as (_ & _ & _ & _ & _ & -> & _).
  - intros sender newOwner t t' l HIt H. split; [by eapply transferOwnership_inv |].
    by apply transferOwnership_Ok in H as (_ & _ & -> & _).
  - intros sender amount t HIt Hex Happ Hamt _ Hbal.
    split; [by apply paid_inv |].
    intros t' l _ Hp. rewrite Hp. by apply paid_surplus.
Qed.

(** Along a history it grows by the funds credited without a call, and by
    nothing else. *)
Lemma run_surplus (steps : list Step) : ∀ s,
  Inv s → surplus (run s steps).1 = surplus s + forced_total steps.
Proof.
  induction steps as [| [tx | v] rest IH]; intros s HI; simpl.
  - lia.
  - destruct (transact tx s) as [[s1 log1] | |] eqn:Htx; [| by apply IH ..].
    destruct (transact_surplus tx s s1 log1 HI Htx) as [HI1 Hs1].
    specialize (IH s1 HI1). destruct (run s1 rest) as [s2 log2]. simpl in *. lia.
  - rewrite IH by (by apply force_funds_inv). fold (forced_total rest).
    unfold surplus, total_pending. simpl. lia.
Qed.

Lemma run_app (l k : list Step) : ∀ s, (run s (l ++ k)).1 = (run (run s l).1 k).1.
Proof.
  induction l as [| [tx | v] l IH]; intros s; simpl; [reflexivity | | apply IH].
  destruct (transact tx s) as [[s1 log1] | |]; [| apply IH ..].
  specialize (IH s1). destruct (run s1 (l ++ k)), (run s1 l). exact IH.
Qed.

(** The reachable states are the ends of the histories. *)
Lemma reachable_is_run (s : State) :
  reachable s ↔ ∃ deployer steps, s = (run (constructor deployer) steps).1.
Proof.
  split.
  - induction 1 as [deployer | s tx _ (d & steps & ->) | s v _ (d & steps & ->)].
    + by exists deployer, [].
    + exists d, (steps ++ [Transaction tx]). rewrite run_app. simpl.
      unfold apply_tx. by destruct (transact tx _) as [[s1 log1] | |].
    + exists d, (steps ++ [ForcedFunds v]). by rewrite run_app.
  - intros (d & steps & ->). apply run_reachable, reachable_deployed.
Qed.

(** C4, as stated, fails: seven wei credited to the contract without a
    call, after a donation of 100 that is still pending, leave it holding
    107 against pending balances of 100. *)
Lemma custodial_balance_exceeds_pending :
  reachable Scenario.topped_up ∧
  getContractBalance Scenario.topped_up = 107 ∧
  total_pending Scenario.topped_up = 100 ∧
  getContractBalance Scenario.topped_up ≠ total_pending Scenario.topped_up.
Proof.
  split; [apply reachable_forced, funded_reachable |].
  split; [reflexivity |]. split; [reflexivity |]. discriminate.
Qed.

(** C4, amended. In every reachable state the balance held by the
    contract, [getContractBalance()], is at least the sum of the pending
    balances of the registered organisations, no organisation is counted
    twice, and an address that is not registered has no pending balance.
    At the end of every history the balance exceeds that sum by exactly the
    funds credited to the contract without a call; the two are equal as
    long as there were none. *)
Theorem custodial_balance :
  (∀ s, reachable s →
     total_pending s ≤ getContractBalance s ∧
     NoDup (ngoAddresses s) ∧
     ∀ o, o ∉ ngoAddresses s → getPendingWithdrawal o s = 0) ∧
  (∀ deployer steps,
     let s := (run (constructor deployer) steps).1 in
     getContractBalance s = total_pending s + forced_total steps ∧
     (forced_total steps = 0 → getContractBalance s = total_pending s)).
Proof.
  split.
  - intros s Hs. apply reachable_inv in Hs. split; [| split].
    + apply (inv_custody s Hs).
    + apply (inv_nodup s Hs).
    + intros o Ho. apply (inv_unregistered s Hs).
      destruct (exists_ (ngos s !!! o)) eqn:He; [| reflexivity].
      exfalso. apply Ho. by apply (inv_registered s Hs).
  - intros deployer steps s.
    pose proof (run_surplus steps (constructor deployer) (constructor_inv deployer)) as H.
    fold s in H. unfold surplus in H.
    change (balance (constructor deployer)) with 0 in H.
    change (total_pending (constructor deployer)) with 0 in H.
    unfold getContractBalance. split; [lia | intros Hz; lia].
Qed.

Lemma custodial_balance_witness :
  total_pending Scenario.topped_up ≤ getContractBalance Scenario.topped_up ∧
  getContractBalance Scenario.funded = total_pending Scenario.funded.
Proof.
  destruct custodial_balance as [Hge Heq]. split.
  - apply (Hge Scenario.topped_up). apply reachable_forced, funded_reachable.
  - apply (Heq Scenario.admin
             [Transaction (mkTx 100 Scenario.alpha 0
                             (RegisterNGO "Alpha Relief" "" "desc" "" ""));
              Transaction (mkTx 101 Scenario.admin 0 (ApproveNGO Scenario.alpha true));
              Transaction (mkTx 102 Scenario.donor1 100 (Donate Scenario.alpha "hi"))]).
    reflexivity.
Defined.
